(** * image-resizer: the batch converter of [src/index.mjs], embedded in Rocq

    The script scans the [images] directory beside it, optionally downsizes
    each picture and re-encodes it to the requested formats under
    [images/formatted].  This development embeds the JavaScript of
    [index.mjs] function by function:

    - the builtins it leans on ([Number], [String.prototype.split], [trim],
      [toLowerCase], [startsWith], node's posix [path.extname] and
      [path.basename]) are modelled on strings of code units below 256;
    - JavaScript numbers are IEEE-754 doubles, kept as mantissa and binary
      exponent, and [Number] rounds the decimal it reads to the nearest
      double, ties to even;
    - the image codec ([sharp]) and the directory listing are parameters of
      the model: a record of functions that say what each call returns or
      throws;
    - asynchronous code runs in program order (every promise is awaited on
      the spot), so it becomes a state-and-exception monad over a [World]
      holding the output files, both console streams and the codec calls
      made so far, and the directories [mkdir] has made sure of;
    - [console.error] with two arguments formats the first one as node's
      [util.format] does: the scan for placeholders is modelled, the text a
      placeholder prints for a thrown value comes with the value. *)

From Stdlib Require Import ZArith Ascii String List Bool Lia.
From stdpp Require Import base option list strings pretty gmap fin_maps.

Local Open Scope string_scope.
Local Open Scope list_scope.
Local Open Scope Z_scope.

(** ** Strings as JavaScript sees them *)

Module Js.

(** Code unit of a character. *)
Definition code (c : ascii) : N := N_of_ascii c.

(** [WhiteSpace] and [LineTerminator] code units below 256: TAB, LF, VT, FF,
    CR, SP and NBSP.  [trim] and [Number] strip exactly these. *)
Definition is_space (c : ascii) : bool :=
  let n := code c in
  ((9 <=? n) && (n <=? 13))%N || (n =? 32)%N || (n =? 160)%N.

(** [c.toLowerCase()] for one code unit: A-Z and the Latin-1 capitals
    (U+00C0..U+00DE but the multiplication sign) move up by 32. *)
Definition lower_char (c : ascii) : ascii :=
  let n := code c in
  if ((65 <=? n) && (n <=? 90))%N
     || ((192 <=? n) && (n <=? 222) && negb (n =? 215))%N
  then ascii_of_N (n + 32) else c.

Fixpoint toLowerCase (s : string) : string :=
  match s with
  | "" => ""
  | String c r => String (lower_char c) (toLowerCase r)
  end.

Fixpoint trimStart (s : string) : string :=
  match s with
  | "" => ""
  | String c r => if is_space c then trimStart r else s
  end.

Fixpoint trimEnd (s : string) : string :=
  match s with
  | "" => ""
  | String c r =>
      match trimEnd r with
      | "" => if is_space c then "" else String c ""
      | r' => String c r'
      end
  end.

Definition trim (s : string) : string := trimEnd (trimStart s).

(** A string that does not begin with white space. *)
Definition starts_clean (s : string) : Prop :=
  match s with
  | "" => True
  | String c _ => is_space c = false
  end.

(** [s.startsWith(p)] *)
Fixpoint startsWith (s p : string) {struct p} : bool :=
  match p, s with
  | "", _ => true
  | String a p', String b s' => if Ascii.eqb a b then startsWith s' p' else false
  | String _ _, "" => false
  end.

(** [s.split(sep)] for a one-character separator: never the empty list. *)
Fixpoint split (sep : ascii) (s : string) : list string :=
  match s with
  | "" => [""]
  | String c r =>
      if Ascii.eqb c sep then "" :: split sep r
      else match split sep r with
           | h :: t => String c h :: t
           | [] => [String c ""]
           end
  end.

(** [s.includes(c)] for one character. *)
Fixpoint includes (s : string) (c : ascii) : bool :=
  match s with
  | "" => false
  | String a r => Ascii.eqb a c || includes r c
  end.

(** A string is truthy iff it is not empty ([if (v)], [filter(Boolean)]). *)
Definition truthy_string (s : string) : bool :=
  match s with "" => false | _ => true end.

(** *** Numbers: IEEE-754 binary64 *)

(** A finite double is [m * 2^e] with [m < 2^53] and [-1074 <= e <= 971];
    normal numbers have [2^52 <= m], subnormals and zero have [e = -1074].
    Zero keeps its sign. *)
Inductive number : Type :=
  | NaN
  | Inf (neg : bool)
  | Fin (neg : bool) (m : Z) (e : Z).

(** The double nearest to the positive rational [n / d], ties to even. *)
Definition round_pos (neg : bool) (n d : Z) : number :=
  let t := Z.log2 n - Z.log2 d in
  let fl := if (if 0 <=? t then d * 2 ^ t <=? n else d <=? n * 2 ^ (- t))
            then t else t - 1 in
  let e := Z.max (fl - 52) (-1074) in
  let num := if 0 <=? e then n else n * 2 ^ (- e) in
  let den := if 0 <=? e then d * 2 ^ e else d in
  let q := num / den in
  let r := num mod den in
  let q' := if (den <? 2 * r) || ((den =? 2 * r) && Z.odd q) then q + 1 else q in
  let '(m, e') := if q' =? 2 ^ 53 then (2 ^ 52, e + 1) else (q', e) in
  if 971 <? e' then Inf neg else Fin neg m e'.

Definition round (neg : bool) (n d : Z) : number :=
  if n =? 0 then Fin neg 0 (-1074) else round_pos neg n d.

(** The double of an integer, for literals in the program text. *)
Definition of_Z (z : Z) : number := round (z <? 0) (Z.abs z) 1.

(** [ToBoolean]: every number but NaN, +0 and -0 is truthy. *)
Definition truthy (x : number) : bool :=
  match x with
  | NaN => false
  | Inf _ => true
  | Fin _ m _ => negb (m =? 0)
  end.

(** [a || b] on numbers. *)
Definition or_else (a b : number) : number := if truthy a then a else b.

(** [a < b] in exact arithmetic on finite doubles. *)
Definition fin_ltb (s : bool) (m e : Z) (t : bool) (n f : Z) : bool :=
  let k := Z.min e f in
  let x := (if s then -1 else 1) * m * 2 ^ (e - k) in
  let y := (if t then -1 else 1) * n * 2 ^ (f - k) in
  x <? y.

(** [a < b]; false as soon as one side is NaN. *)
Definition ltb (a b : number) : bool :=
  match a, b with
  | NaN, _ | _, NaN => false
  | Inf true, Inf true => false
  | Inf true, _ => true
  | _, Inf true => false
  | Inf false, _ => false
  | _, Inf false => true
  | Fin s m e, Fin t n f => fin_ltb s m e t n f
  end.

(** [a > b] *)
Definition gtb (a b : number) : bool := ltb b a.

(** *** [Number(string)]: the StringToNumber grammar *)

(** Value of [c] as a digit in base 2, 8, 10 or 16. *)
Definition digit_val (base : Z) (c : ascii) : option Z :=
  let n := Z.of_N (code c) in
  let v := if (48 <=? n) && (n <=? 57) then n - 48
           else if (97 <=? n) && (n <=? 102) then n - 87
           else if (65 <=? n) && (n <=? 70) then n - 55
           else 16 in
  if v <? base then Some v else None.

(** The longest run of digits at the head of [s]: the number read on top of
    [acc], how many digits were read on top of [k], and what is left. *)
Fixpoint read_digits (base : Z) (s : string) (acc k : Z) : Z * Z * string :=
  match s with
  | "" => (acc, k, "")
  | String c r =>
      match digit_val base c with
      | Some d => read_digits base r (acc * base + d) (k + 1)
      | None => (acc, k, s)
      end
  end.

(** [ExponentPart], optional, up to the end of the string. *)
Definition read_exponent (s : string) : option Z :=
  match s with
  | "" => Some 0
  | String c r =>
      if (Ascii.eqb c "e" || Ascii.eqb c "E")%char then
        let '(neg, r') :=
          match r with
          | String "+" t => (false, t)
          | String "-" t => (true, t)
          | _ => (false, r)
          end in
        let '(x, k, rest) := read_digits 10 r' 0 0 in
        if (0 <? k) && negb (truthy_string rest)
        then Some (if neg then - x else x) else None
      else None
  end.

(** [StrUnsignedDecimalLiteral], with the sign already read. *)
Definition read_decimal (neg : bool) (s : string) : number :=
  if String.eqb s "Infinity" then Inf neg else
  let '(i, ki, r1) := read_digits 10 s 0 0 in
  let '(m, kf, r2) :=
    match r1 with
    | String "." t => read_digits 10 t i 0
    | _ => (i, 0, r1)
    end in
  if 0 <? ki + kf then
    match read_exponent r2 with
    | Some x =>
        let p := x - kf in
        if 0 <=? p then round neg (m * 10 ^ p) 1 else round neg m (10 ^ (- p))
    | None => NaN
    end
  else NaN.

(** [NonDecimalIntegerLiteral] after its two-character prefix. *)
Definition read_radix (base : Z) (s : string) : number :=
  let '(x, k, rest) := read_digits base s 0 0 in
  if (0 <? k) && negb (truthy_string rest) then round false x 1 else NaN.

Definition StringToNumber (s : string) : number :=
  match trim s with
  | "" => Fin false 0 (-1074)
  | String "0" (String "x" r) | String "0" (String "X" r) => read_radix 16 r
  | String "0" (String "o" r) | String "0" (String "O" r) => read_radix 8 r
  | String "0" (String "b" r) | String "0" (String "B" r) => read_radix 2 r
  | String "+" r => read_decimal false r
  | String "-" r => read_decimal true r
  | t => read_decimal false t
  end.

(** [Number(v)] where [v] is a string or [undefined]. *)
Definition Number (v : option string) : number :=
  match v with
  | Some s => StringToNumber s
  | None => NaN
  end.

End Js.

(** ** node:path, posix flavour *)

Module Path.

Definition sep : ascii := "/"%char.

(** The last component that is not empty: trailing separators are skipped. *)
Fixpoint last_nonempty (l : list string) : string :=
  match l with
  | [] => ""
  | x :: r =>
      match last_nonempty r with
      | "" => x
      | y => y
      end
  end.

(** [path.basename(p)] *)
Definition basename (p : string) : string := last_nonempty (Js.split sep p).

(** The suffix of [s] that starts at its last dot. *)
Fixpoint from_last_dot (s : string) : option string :=
  match s with
  | "" => None
  | String c r =>
      match from_last_dot r with
      | Some x => Some x
      | None => if Ascii.eqb c "." then Some s else None
      end
  end.

(** The extension of one component: from its last dot to its end; empty
    when there is no dot, when the only dot leads the component, and for
    the component [..]. *)
Definition ext_of (b : string) : string :=
  match b with
  | "" => ""
  | String c r =>
      if String.eqb b ".." then ""
      else match from_last_dot r with
           | Some x => x
           | None => ""
           end
  end.

(** [path.extname(p)]: the extension of the last component. *)
Definition extname (p : string) : string := ext_of (basename p).

Definition endsWith (s suffix : string) : bool :=
  let n := (String.length s - String.length suffix)%nat in
  (String.length suffix <=? String.length s)%nat
  && String.eqb (String.substring n (String.length suffix) s) suffix.

(** [path.basename(p, suffix)] for a suffix that is empty or ends the last
    component, which is how [processImage] calls it (with [extname p]): the
    component without the suffix, unless the component is the suffix. *)
Definition basename_ext (p suffix : string) : string :=
  let b := basename p in
  if Js.truthy_string suffix && endsWith b suffix && negb (String.eqb b suffix)
  then String.substring 0 (String.length b - String.length suffix) b
  else b.

(** [path.join(dir, name)] for a normalized [dir] and one plain component
    [name]: nothing to normalize, the two are glued with a separator. *)
Definition join (dir name : string) : string := dir +:+ "/" +:+ name.

End Path.

(** ** node:util, as [console.error] uses it on two arguments *)

Module Util.

(** The characters that make a placeholder after [%]. *)
Definition is_placeholder (c : ascii) : bool :=
  existsb (Ascii.eqb c) ["s"; "j"; "d"; "O"; "o"; "i"; "f"; "c"]%char.

(** The scan of the format string.  [pending] says that the argument has
    not been taken yet and [under c] is the text placeholder [%c] prints for
    it.  The first placeholder takes the argument, later ones stay as they
    are written; [%%] gives one [%]; the character after a [%] is never
    read as the start of a placeholder.  The scan returns the text and
    whether the argument is still pending. *)
Fixpoint scan (under : ascii -> string) (pending : bool) (s : string)
  : string * bool :=
  match s with
  | EmptyString => ("", pending)
  | String a tl =>
      match tl with
      | EmptyString => (String a "", pending)
      | String c rest =>
          if Ascii.eqb a "%" then
            if Ascii.eqb c "%" then
              let r := scan under pending rest in (String "%" (fst r), snd r)
            else if pending && is_placeholder c then
              let r := scan under false rest in (under c +:+ fst r, snd r)
            else
              let r := scan under pending rest in (String a (String c (fst r)), snd r)
          else
            let r := scan under pending tl in (String a (fst r), snd r)
      end
  end.

(** [util.format(first, arg)] for a string [first]: an argument that no
    placeholder took follows after a space, printed as [plain]. *)
Definition format (first : string) (under : ascii -> string) (plain : string)
  : string :=
  let r := scan under true first in
  fst r +:+ (if snd r then " " +:+ plain else "").

End Util.

(** ** Option Resolver: [parseArgs] *)

Record Options : Type := mkOptions {
  maxWidth : Js.number;
  quality : Js.number;
  formats : list string;
  dryRun : bool;
  overwrite : bool
}.

(** The object literal that [parseArgs] starts from. *)
Definition defaults : Options :=
  {| maxWidth := Js.of_Z 1600;
     quality := Js.of_Z 80;
     formats := ["webp"; "jpeg"];
     dryRun := false;
     overwrite := false |}.

Definition set_maxWidth (x : Js.number) (o : Options) : Options :=
  mkOptions x (quality o) (formats o) (dryRun o) (overwrite o).
Definition set_quality (x : Js.number) (o : Options) : Options :=
  mkOptions (maxWidth o) x (formats o) (dryRun o) (overwrite o).
Definition set_formats (x : list string) (o : Options) : Options :=
  mkOptions (maxWidth o) (quality o) x (dryRun o) (overwrite o).
Definition set_dryRun (x : bool) (o : Options) : Options :=
  mkOptions (maxWidth o) (quality o) (formats o) x (overwrite o).
Definition set_overwrite (x : bool) (o : Options) : Options :=
  mkOptions (maxWidth o) (quality o) (formats o) (dryRun o) x.

(** [arg.split("=")[1]]: the second piece, [undefined] when there is none. *)
Definition value_of (arg : string) : option string :=
  Js.split "=" arg !! 1%nat.

(** [v.split(",").map((s) => s.trim().toLowerCase()).filter(Boolean)] *)
Definition format_tokens (v : string) : list string :=
  List.filter Js.truthy_string
    (map (fun s => Js.toLowerCase (Js.trim s)) (Js.split "," v)).

(** One turn of the loop over [argv.slice(2)]. *)
Definition parseArg (opts : Options) (arg : string) : Options :=
  if String.eqb arg "--dry-run" then set_dryRun true opts
  else if String.eqb arg "--overwrite" then set_overwrite true opts
  else if Js.startsWith arg "--max-width=" then
    set_maxWidth (Js.or_else (Js.Number (value_of arg)) (maxWidth opts)) opts
  else if Js.startsWith arg "--quality=" then
    set_quality (Js.or_else (Js.Number (value_of arg)) (quality opts)) opts
  else if Js.startsWith arg "--formats=" then
    match value_of arg with
    | Some v => if Js.truthy_string v then set_formats (format_tokens v) opts else opts
    | None => opts
    end
  else opts.

Definition parseArgs (argv : list string) : Options :=
  fold_left parseArg (drop 2 argv) defaults.

(** ** File Discovery: [isImageFile] and [listImageFiles] *)

Definition OUTPUT_SUBDIR : string := "formatted".

Definition SUPPORTED_EXTS : list string :=
  [".jpg"; ".jpeg"; ".png"; ".webp"; ".tif"; ".tiff"; ".gif"].

(** [SUPPORTED_EXTS.has(ext)] *)
Definition has (set : list string) (x : string) : bool :=
  existsb (String.eqb x) set.

Definition isImageFile (name : string) : bool :=
  let ext := Js.toLowerCase (Path.extname name) in
  has SUPPORTED_EXTS ext.

(** A directory entry as [readdir(dir, { withFileTypes: true })] yields it:
    a regular file, a directory (with what it holds), or something else
    (a symbolic link, a socket, a device). *)
#[warnings="-register-all"] Inductive Dirent : Type :=
  | RegularFile (name : string)
  | Directory (name : string) (entries : list Dirent)
  | Special (name : string).

Definition name (e : Dirent) : string :=
  match e with
  | RegularFile n | Directory n _ | Special n => n
  end.

Definition isDirectory (e : Dirent) : bool :=
  match e with Directory _ _ => true | _ => false end.

Definition isFile (e : Dirent) : bool :=
  match e with RegularFile _ => true | _ => false end.

(** The loop of [listImageFiles] over the entries read. *)
Fixpoint collectImageFiles (dir : string) (entries : list Dirent) : list string :=
  match entries with
  | [] => []
  | e :: rest =>
      if isDirectory e then
        if String.eqb (name e) OUTPUT_SUBDIR then collectImageFiles dir rest
        else collectImageFiles dir rest
      else if isFile e && isImageFile (name e)
      then Path.join dir (name e) :: collectImageFiles dir rest
      else collectImageFiles dir rest
  end.

(** ** The world the script runs in *)

(** A thrown value: its [message]; the text [console.error] prints for the
    value itself; and the text [util.format] puts in place of a placeholder
    [%d], [%i], [%f], [%j], [%o] or [%O] (and of [%s] when there is no
    message) that takes [err?.message || err] as its argument. *)
Record JsError : Type := mkError {
  message : string;
  inspect : string;
  formatted : ascii -> string
}.

(** What [processImage] learns from [pipeline.metadata()]: [meta.width] is a
    number or [undefined]. *)
Record Metadata : Type := mkMetadata { width : option Js.number }.

(** The argument of [work.resize]. *)
Record ResizeOptions : Type := mkResize {
  resize_width : Js.number;
  withoutEnlargement : bool;
  fit : string
}.

(** A sharp pipeline: the input it was opened on, its options, and the
    operations queued on it. *)
Record Pipeline : Type := mkPipeline {
  input : string;
  failOn : string;
  rotate : bool;
  resize : option ResizeOptions
}.

(** The output options queued by [img.webp], [img.jpeg] and [img.png]. *)
Inductive Encoder : Type :=
  | Webp (quality : Js.number) (effort : Z)
  | Jpeg (quality : Js.number) (mozjpeg : bool)
  | Png (quality : Js.number).

(** What a path of the output directory holds: a picture this script wrote,
    or anything that was there before. *)
Inductive Content : Type :=
  | Encoded (img : Pipeline) (enc : Encoder)
  | Foreign (tag : N).

(** Calls into the codec, in the order they are made. *)
Inductive Call : Type :=
  | CallMetadata (img : Pipeline)
  | CallResize (o : ResizeOptions)
  | CallClone (img : Pipeline)
  | CallEncode (enc : Encoder)
  | CallToFile (img : Pipeline) (enc : Encoder) (outFile : string).

(** The world: what lies at the paths the script tests and writes (its
    output files), the two console streams, the codec calls made, and the
    directories [mkdir] has made sure of.  The output directory is never the
    path of an output file, so the two do not meet. *)
Record World : Type := mkWorld {
  disk : gmap string Content;
  stdout : list string;
  stderr : list string;
  calls : list Call;
  dirs : gset string
}.

(** The codec as the script consumes it: what each call answers or throws.
    [metadata] is where an unreadable or undecodable input surfaces;
    [resize], [webp], [jpeg] and [png] throw on options they reject;
    [toFile] runs the pipeline and writes the file. *)
Record Sharp : Type := mkSharp {
  sharp_metadata : Pipeline -> JsError + Metadata;
  sharp_resize : ResizeOptions -> option JsError;
  sharp_encode : Encoder -> option JsError;
  sharp_toFile : Pipeline -> Encoder -> string -> gmap string Content -> option JsError
}.

(** The file system calls of [main] outside the output files: whether
    [IMAGES_DIR] can be accessed, whether [mkdir] of the output directory
    throws, and what [readdir] of [IMAGES_DIR] yields. *)
Record Host : Type := mkHost {
  host_access : bool;
  host_mkdir : option JsError;
  host_readdir : JsError + list Dirent
}.

(** *** Awaited code: state and exceptions *)

Inductive Completion (A : Type) : Type :=
  | Throw (e : JsError)
  | Return (a : A).
Arguments Throw {A} e.
Arguments Return {A} a.

Definition M (A : Type) : Type := World -> Completion A * World.

Definition ret {A} (a : A) : M A := fun w => (Return a, w).

Definition throw {A} (e : JsError) : M A := fun w => (Throw e, w).

Definition bind {A B} (m : M A) (k : A -> M B) : M B :=
  fun w =>
    match m w with
    | (Return a, w') => k a w'
    | (Throw e, w') => (Throw e, w')
    end.

(** [try { m } catch (err) { h(err) }] *)
Definition try_catch {A} (m : M A) (h : JsError -> M A) : M A :=
  fun w =>
    match m w with
    | (Return a, w') => (Return a, w')
    | (Throw e, w') => h e w'
    end.

Notation "x <- m ;; k" := (bind m (fun x => k))
  (at level 100, m at next level, right associativity).
Notation "m ;;; k" := (bind m (fun _ => k))
  (at level 100, right associativity).

(** Appending to stdout, to stderr and to the record of codec calls, and
    storing a file. *)
Definition log_out (lines : list string) (w : World) : World :=
  mkWorld (disk w) (stdout w ++ lines) (stderr w) (calls w) (dirs w).

Definition log_err (lines : list string) (w : World) : World :=
  mkWorld (disk w) (stdout w) (stderr w ++ lines) (calls w) (dirs w).

Definition log_calls (cs : list Call) (w : World) : World :=
  mkWorld (disk w) (stdout w) (stderr w) (calls w ++ cs) (dirs w).

Definition store (p : string) (c : Content) (w : World) : World :=
  mkWorld (<[p := c]> (disk w)) (stdout w) (stderr w) (calls w) (dirs w).

(** The world once directory [dir] is there. *)
Definition made (dir : string) (w : World) : World :=
  mkWorld (disk w) (stdout w) (stderr w) (calls w) ({[ dir ]} ∪ dirs w).

Definition console_log (line : string) : M unit :=
  fun w => (Return tt, log_out [line] w).

(** [console.error] and [console.warn] both write to stderr. *)
Definition console_error (line : string) : M unit :=
  fun w => (Return tt, log_err [line] w).

Definition record_call (c : Call) : M unit :=
  fun w => (Return tt, log_calls [c] w).

(** [fs.access(p)] inside [try]/[catch]: does the path exist? *)
Definition exists_on_disk (p : string) : M bool :=
  fun w => (Return (bool_decide (is_Some (disk w !! p))), w).

Definition write_file (p : string) (c : Content) : M unit :=
  fun w => (Return tt, store p c w).

Definition make_dir (dir : string) : M unit :=
  fun w => (Return tt, made dir w).

(** Throw what the codec says, if it says so. *)
Definition check (r : option JsError) : M unit :=
  match r with
  | Some e => throw e
  | None => ret tt
  end.

(** ** Per-Image Converter and Run Orchestrator *)

Inductive Status : Type := written | skipped_exists | dry_run.

(** The string the script stores in [status]. *)
Definition status_text (s : Status) : string :=
  match s with
  | written => "written"
  | skipped_exists => "skipped-exists"
  | dry_run => "dry-run"
  end.

(** An entry of [outputs]; [fn] is the closure that queues the encoder, kept
    as the options it passes. *)
Record OutputSpec : Type := mkOutput {
  fmt : string;
  outFile : string;
  fn : Encoder
}.

(** An entry of [results]. *)
Record ConversionResult : Type := mkResult {
  src : string;
  out : string;
  format : string;
  status : Status
}.

(** [s.padEnd(n)] with spaces. *)
Definition padEnd (n : nat) (s : string) : string :=
  s +:+ String.concat "" (repeat " " (n - String.length s)).

Definition count_status (s : Status) (rs : list ConversionResult) : nat :=
  length (List.filter (fun r => bool_decide (status_text (status r) = status_text s)) rs).

Section Script.

(** [path.resolve(__dirname, "images")], fixed by where the script lives. *)
Variable IMAGES_DIR : string.
Variable sharp : Sharp.
Variable host : Host.

Definition OUTPUT_DIR : string := Path.join IMAGES_DIR OUTPUT_SUBDIR.

(** [await pipeline.metadata()] *)
Definition metadata (img : Pipeline) : M Metadata :=
  record_call (CallMetadata img) ;;;
  match sharp_metadata sharp img with
  | inl e => throw e
  | inr m => ret m
  end.

(** [work.resize(o)] *)
Definition do_resize (img : Pipeline) (o : ResizeOptions) : M Pipeline :=
  record_call (CallResize o) ;;;
  check (sharp_resize sharp o) ;;;
  ret (mkPipeline (input img) (failOn img) (rotate img) (Some o)).

(** [work.clone()] *)
Definition clone (img : Pipeline) : M Pipeline :=
  record_call (CallClone img) ;;; ret img.

(** [fn(img)]: one of [img.webp], [img.jpeg], [img.png]. *)
Definition apply_fn (enc : Encoder) (img : Pipeline) : M (Pipeline * Encoder) :=
  record_call (CallEncode enc) ;;;
  check (sharp_encode sharp enc) ;;;
  ret (img, enc).

(** [await img.toFile(outFile)]: the codec may look at the output directory;
    a write that throws is taken to leave the disk as it was. *)
Definition toFile (img : Pipeline * Encoder) (outFile : string) : M unit :=
  record_call (CallToFile (fst img) (snd img) outFile) ;;;
  (fun w => check (sharp_toFile sharp (fst img) (snd img) outFile (disk w)) w) ;;;
  write_file outFile (Encoded (fst img) (snd img)).

(** [meta.width] is a number and greater than [opts.maxWidth]. *)
Definition shouldResize (meta : Metadata) (opts : Options) : bool :=
  match width meta with
  | Some w => Js.gtb w (maxWidth opts)
  | None => false
  end.

(** The first loop of [processImage]: an output per known format token, a
    warning per unknown one. *)
Fixpoint planOutputs (nameNoExt : string) (opts : Options) (fmts : list string)
  : M (list OutputSpec) :=
  match fmts with
  | [] => ret []
  | fmt :: rest =>
      if String.eqb fmt "webp" then
        outputs <- planOutputs nameNoExt opts rest ;;
        ret (mkOutput fmt (Path.join OUTPUT_DIR (nameNoExt +:+ ".webp"))
               (Webp (quality opts) 4) :: outputs)
      else if String.eqb fmt "jpeg" || String.eqb fmt "jpg" then
        outputs <- planOutputs nameNoExt opts rest ;;
        ret (mkOutput "jpeg" (Path.join OUTPUT_DIR (nameNoExt +:+ ".jpg"))
               (Jpeg (quality opts) true) :: outputs)
      else if String.eqb fmt "png" then
        outputs <- planOutputs nameNoExt opts rest ;;
        ret (mkOutput fmt (Path.join OUTPUT_DIR (nameNoExt +:+ ".png"))
               (Png (quality opts)) :: outputs)
      else
        console_error ("Skipping unsupported output format: " +:+ fmt) ;;;
        planOutputs nameNoExt opts rest
  end.

(** One turn of the second loop: the result pushed for one output. *)
Definition convertOne (basename : string) (opts : Options) (work : Pipeline)
    (o : OutputSpec) : M ConversionResult :=
  found <- (if overwrite opts then ret false else exists_on_disk (outFile o)) ;;
  if found then
    ret (mkResult basename (Path.basename (outFile o)) (fmt o) skipped_exists)
  else if dryRun opts then
    ret (mkResult basename (Path.basename (outFile o)) (fmt o) dry_run)
  else
    copy <- clone work ;;
    img <- apply_fn (fn o) copy ;;
    toFile img (outFile o) ;;;
    ret (mkResult basename (Path.basename (outFile o)) (fmt o) written).

(** The second loop of [processImage]. *)
Fixpoint convertAll (basename : string) (opts : Options) (work : Pipeline)
    (outputs : list OutputSpec) : M (list ConversionResult) :=
  match outputs with
  | [] => ret []
  | o :: rest =>
      r <- convertOne basename opts work o ;;
      results <- convertAll basename opts work rest ;;
      ret (r :: results)
  end.

(** [sharp(srcPath, { failOn: "none" }).rotate()] *)
Definition opened (srcPath : string) : Pipeline :=
  mkPipeline srcPath "none" true None.

(** [{ width: opts.maxWidth, withoutEnlargement: true, fit: "inside" }] *)
Definition bounded (opts : Options) : ResizeOptions :=
  mkResize (maxWidth opts) true "inside".

(** [path.basename(srcPath, path.extname(srcPath))] *)
Definition nameNoExt (srcPath : string) : string :=
  Path.basename_ext srcPath (Path.extname srcPath).

Definition processImage (srcPath : string) (opts : Options)
  : M (list ConversionResult) :=
  let basename := Path.basename srcPath in
  let pipeline := opened srcPath in
  meta <- metadata pipeline ;;
  work <- (if shouldResize meta opts
           then do_resize pipeline (bounded opts)
           else ret pipeline) ;;
  outputs <- planOutputs (nameNoExt srcPath) opts (formats opts) ;;
  convertAll basename opts work outputs.

(** [err?.message || err], as [console.error] prints it when no placeholder
    takes it. *)
Definition error_text (err : JsError) : string :=
  if Js.truthy_string (message err) then message err else inspect err.

(** [err?.message || err], as a placeholder of the first argument prints it:
    [%c] drops it, [%s] prints a message as it is. *)
Definition error_under (err : JsError) (c : ascii) : string :=
  if Ascii.eqb c "c" then ""
  else if Ascii.eqb c "s" && Js.truthy_string (message err) then message err
  else formatted err c.

(** What [console.error] prints for its two arguments when [processImage]
    throws on file [f]: the first, [`Error processing ${basename}:`], is the
    format string. *)
Definition error_line (f : string) (err : JsError) : string :=
  Util.format ("Error processing " +:+ Path.basename f +:+ ":")
    (error_under err) (error_text err).

(** The loop of [main] over the files found, with its [try]/[catch]. *)
Fixpoint processFiles (files : list string) (opts : Options)
    (allResults : list ConversionResult) : M (list ConversionResult) :=
  match files with
  | [] => ret allResults
  | f :: rest =>
      allResults' <-
        try_catch
          (res <- processImage f opts ;; ret (allResults ++ res))
          (fun err => console_error (error_line f err) ;;; ret allResults) ;;
      processFiles rest opts allResults'
  end.

(** [await fs.mkdir(dir, { recursive: true })]: unless it throws, the
    directory is there afterwards, made if it was not. *)
Definition ensureDir (dir : string) : M unit :=
  check (host_mkdir host) ;;; make_dir dir.

Definition listImageFiles (dir : string) : M (list string) :=
  match host_readdir host with
  | inl e => throw e
  | inr entries => ret (collectImageFiles dir entries)
  end.

Definition result_line (r : ConversionResult) : string :=
  padEnd 13 (status_text (status r)) +:+ " " +:+ src r +:+ " -> "
  +:+ out r +:+ " [" +:+ format r +:+ "]".

Fixpoint log_results (rs : list ConversionResult) : M unit :=
  match rs with
  | [] => ret tt
  | r :: rest => console_log (result_line r) ;;; log_results rest
  end.

Definition found_line (files : list string) : string :=
  "Found " +:+ pretty (length files) +:+ " image(s). Output -> " +:+ OUTPUT_DIR.

Definition done_line (allResults : list ConversionResult) : string :=
  "Done. written=" +:+ pretty (count_status written allResults)
  +:+ ", skipped=" +:+ pretty (count_status skipped_exists allResults)
  +:+ ", dry=" +:+ pretty (count_status dry_run allResults).

(** [main] from the directory check on; it returns [allResults]. *)
Definition run (opts : Options) : M (list ConversionResult) :=
  ensureDir OUTPUT_DIR ;;;
  files <- listImageFiles IMAGES_DIR ;;
  match files with
  | [] => console_log "No images found to process." ;;; ret []
  | _ =>
      console_log (found_line files) ;;;
      (if dryRun opts then console_log "(dry-run) No files will be written"
       else ret tt) ;;;
      allResults <- processFiles files opts [] ;;
      log_results allResults ;;;
      console_log (done_line allResults) ;;;
      ret allResults
  end.

(** The whole process: [main()] with its top-level [catch]; the exit code
    and the world it leaves. *)
Definition main (argv : list string) (w : World) : Z * World :=
  let opts := parseArgs argv in
  if host_access host then
    match run opts w with
    | (Return _, w') => (0, w')
    | (Throw err, w') => (1, snd (console_error (inspect err) w'))
    end
  else (1, snd (console_error ("Missing images directory: " +:+ IMAGES_DIR) w)).

End Script.

(** ** The fan-out in the words of the specification

    These follow the text of the specification, not the code; the theorems
    below relate them to [planOutputs] and [processImage]. *)

(** The tokens that name an output format. *)
Definition valid_token (t : string) : bool :=
  has ["webp"; "jpeg"; "jpg"; "png"] t.

(** [jpg] is an alias of [jpeg]. *)
Definition normalized (t : string) : string :=
  if String.eqb t "jpg" then "jpeg" else t.

(** The extension of the output file for a valid token. *)
Definition extension_of (t : string) : string :=
  if String.eqb t "webp" then ".webp"
  else if String.eqb t "png" then ".png"
  else ".jpg".

(** The encoder options for a valid token. *)
Definition encoder_of (opts : Options) (t : string) : Encoder :=
  if String.eqb t "webp" then Webp (quality opts) 4
  else if String.eqb t "png" then Png (quality opts)
  else Jpeg (quality opts) true.

(** The OutputSpec of a valid token. *)
Definition spec_of (IMAGES_DIR nameNoExt : string) (opts : Options) (t : string)
  : OutputSpec :=
  mkOutput (normalized t)
    (Path.join (OUTPUT_DIR IMAGES_DIR) (nameNoExt +:+ extension_of t))
    (encoder_of opts t).

Definition outputs_for (IMAGES_DIR nameNoExt : string) (opts : Options)
    (fmts : list string) : list OutputSpec :=
  map (spec_of IMAGES_DIR nameNoExt opts) (List.filter valid_token fmts).

Definition warnings_for (fmts : list string) : list string :=
  map (fun t => "Skipping unsupported output format: " +:+ t)
    (List.filter (fun t => negb (valid_token t)) fmts).

(** The result reported for an output with a given status. *)
Definition result_of (basename : string) (s : Status) (o : OutputSpec)
  : ConversionResult :=
  mkResult basename (Path.basename (outFile o)) (fmt o) s.

(** A [written] result read again once its file exists. *)
Definition rerun (r : ConversionResult) : ConversionResult :=
  mkResult (src r) (out r) (format r) skipped_exists.

(** What a completed computation returned; nothing when it threw. *)
Definition returned {A} (c : Completion (list A) * World) : list A :=
  match fst c with
  | Return l => l
  | Throw _ => []
  end.

(** The constraints the data model puts on a Configuration: [maxWidth] a
    positive integer, [quality] an integer from 1 to 100. *)
Definition is_integer (x : Js.number) : bool :=
  match x with
  | Js.Fin _ m e => if 0 <=? e then true else m mod 2 ^ (- e) =? 0
  | _ => false
  end.

Definition positive_integer (x : Js.number) : bool :=
  is_integer x && Js.gtb x (Js.of_Z 0).

Definition quality_in_range (x : Js.number) : bool :=
  is_integer x && negb (Js.ltb x (Js.of_Z 1)) && negb (Js.gtb x (Js.of_Z 100)).

(** The first guard of the second loop: overwrite is off and the path of
    the output exists. *)
Definition already_there (opts : Options) (o : OutputSpec) (w : World) : bool :=
  if overwrite opts then false else bool_decide (is_Some (disk w !! outFile o)).

(** What [run] prints before it converts anything. *)
Definition banner (IMAGES_DIR : string) (opts : Options) (files : list string)
  : list string :=
  found_line IMAGES_DIR files
  :: (if dryRun opts then ["(dry-run) No files will be written"] else []).

Definition is_resize (c : Call) : bool :=
  match c with CallResize _ => true | _ => false end.

(** Kinds of codec calls, to count them. *)
Definition is_metadata (c : Call) : bool :=
  match c with CallMetadata _ => true | _ => false end.

Definition is_clone (c : Call) : bool :=
  match c with CallClone _ => true | _ => false end.

Definition is_encode (c : Call) : bool :=
  match c with CallEncode _ => true | _ => false end.

Definition is_toFile (c : Call) : bool :=
  match c with CallToFile _ _ _ => true | _ => false end.

(** The calls of the fan-out: clone, encode, write. *)
Definition is_work (c : Call) : bool := is_clone c || is_encode c || is_toFile c.

(** A path below the output directory. *)
Definition under_output_dir (IMAGES_DIR p : string) : bool :=
  Js.startsWith p (OUTPUT_DIR IMAGES_DIR +:+ "/").

(** A numeric option that takes effect: the argument has the prefix and its
    value converts to a number other than NaN and zero. *)
Definition sets_number (prefix arg : string) : bool :=
  Js.startsWith arg prefix && Js.truthy (Js.Number (value_of arg)).

(** A name as a directory listing gives it: not empty, no separator. *)
Definition plain_name (n : string) : Prop :=
  n <> "" /\ Js.includes n "/" = false.

(** A result is backed when it is dry-run or the file it names is in the
    output directory. *)
Definition backed (IMAGES_DIR : string) (w : World) (r : ConversionResult) : Prop :=
  status r <> dry_run ->
  is_Some (disk w !! Path.join (OUTPUT_DIR IMAGES_DIR) (out r)).

(** A file gets to the fan-out when its metadata is read and the resize, if
    one is due, is accepted. *)
Definition reaches_fan_out (sharp : Sharp) (opts : Options) (f : string) : bool :=
  match sharp_metadata sharp (opened f) with
  | inl _ => false
  | inr meta =>
      if shouldResize meta opts
      then match sharp_resize sharp (bounded opts) with Some _ => false | None => true end
      else true
  end.

(** The handle the fan-out of a file works on: the pipeline as opened, with
    the resize queued when one is due. *)
Definition work_handle (sharp : Sharp) (opts : Options) (f : string) : Pipeline :=
  match sharp_metadata sharp (opened f) with
  | inr meta =>
      if shouldResize meta opts
      then mkPipeline f "none" true (Some (bounded opts))
      else opened f
  | inl _ => opened f
  end.


(** The failure semantics of the fan-out in the words of the specification:
    going through the outputs in order from the output directory [d], the
    error of the first encoder or write call that throws, if any.  An output
    that is skipped (overwrite off and the file there) or only reported (a
    dry run) makes no call; one that is written is there for those that
    follow. *)
Fixpoint first_throw (sharp : Sharp) (opts : Options) (work : Pipeline)
    (outputs : list OutputSpec) (d : gmap string Content) : option JsError :=
  match outputs with
  | [] => None
  | o :: rest =>
      if (negb (overwrite opts) && bool_decide (is_Some (d !! outFile o)))
         || dryRun opts
      then first_throw sharp opts work rest d
      else match sharp_encode sharp (fn o) with
           | Some e => Some e
           | None =>
               match sharp_toFile sharp work (fn o) (outFile o) d with
               | Some e => Some e
               | None =>
                   first_throw sharp opts work rest
                     (<[outFile o := Encoded work (fn o)]> d)
               end
           end
  end.

(** The format tokens in the words of the specification: the pieces between
    the commas, trimmed and lower-cased, the empty ones dropped. *)
Definition tokens_of (pieces : list string) : list string :=
  List.filter (fun t => negb (String.eqb t ""))
    (map (fun p => Js.toLowerCase (Js.trim p)) pieces).

(** The outputs of every file that gets to the fan-out are in [d]. *)
Definition all_outputs_in (IMAGES_DIR : string) (sharp : Sharp)
    (d : gmap string Content) (opts : Options) (files : list string) : Prop :=
  Forall (fun f => reaches_fan_out sharp opts f = true ->
                   Forall (fun o => is_Some (d !! outFile o))
                     (outputs_for IMAGES_DIR (nameNoExt f) opts (formats opts))) files.

(** ** A sample installation

    The script under [/app], a codec that behaves like sharp on three
    pictures (one of them corrupt) and rejects a quality outside 1..100 and
    a width that is not positive, and a few worlds to run it in. *)

Module Sample.

Definition dir : string := "/app/images".

Definition quality_of (enc : Encoder) : Js.number :=
  match enc with
  | Webp q _ | Jpeg q _ | Png q => q
  end.

(** An [Error] with a text message that is no number and needs no escape:
    [%d], [%i] and [%f] print it as [NaN], [%j] in double quotes, [%o] and
    [%O] in single quotes. *)
Definition error (msg : string) : JsError :=
  mkError msg "[Error]"
    (fun c => if existsb (Ascii.eqb c) ["d"; "i"; "f"]%char then "NaN"
              else if Ascii.eqb c "j" then String "034" (msg +:+ String "034" "")
              else "'" +:+ msg +:+ "'").

Definition codec : Sharp :=
  mkSharp
    (fun img =>
       if String.eqb (input img) "/app/images/bad.png"
       then inl (error "Input file contains unsupported image format")
       else if String.eqb (input img) "/app/images/b.jpg"
       then inr (mkMetadata (Some (Js.of_Z 2000)))
       else inr (mkMetadata (Some (Js.of_Z 800))))
    (fun o =>
       if Js.gtb (resize_width o) (Js.of_Z 0) then None
       else Some (error "Expected positive integer for width"))
    (fun enc =>
       if Js.gtb (quality_of enc) (Js.of_Z 100) || Js.ltb (quality_of enc) (Js.of_Z 1)
       then Some (error "Expected integer between 1 and 100 for quality")
       else None)
    (fun _ _ _ _ => None).

(** A codec that reads every input as 800 wide and accepts every call. *)
Definition lenient : Sharp :=
  mkSharp (fun _ => inr (mkMetadata (Some (Js.of_Z 800))))
    (fun _ => None) (fun _ => None) (fun _ _ _ _ => None).

Definition empty : World := mkWorld ∅ [] [] [] ∅.

(** A world where [a.webp] is already in the output directory. *)
Definition with_a_webp : World :=
  mkWorld {[ "/app/images/formatted/a.webp" := Foreign 7 ]} [] [] [] ∅.

Definition a_png : Pipeline := mkPipeline "/app/images/a.png" "none" true None.

Definition a_webp : OutputSpec :=
  mkOutput "webp" "/app/images/formatted/a.webp" (Webp (Js.of_Z 80) 4).

Definition dry : Options := set_dryRun true defaults.

Definition host : Host :=
  mkHost true None
    (inr [RegularFile "a.png"; Directory "formatted" [RegularFile "a.webp"];
          RegularFile "bad.png"; RegularFile "b.jpg"; RegularFile "notes.txt";
          Special "link.png"; Directory "album.jpg" []; RegularFile "a.GIF"]).

End Sample.

(** * Properties *)

(** ** The builtins on examples *)

Example Number_examples :
  Js.Number (Some "500") = Js.of_Z 500
  /\ Js.Number (Some " 12 ") = Js.of_Z 12
  /\ Js.Number (Some "0x10") = Js.of_Z 16
  /\ Js.Number (Some "1e3") = Js.of_Z 1000
  /\ Js.Number (Some "-5") = Js.of_Z (-5)
  /\ Js.Number (Some "2.5") = Js.round false 5 2
  /\ Js.Number (Some "0.1") = Js.Fin false 7205759403792794 (-56)
  /\ Js.Number (Some "") = Js.Fin false 0 (-1074)
  /\ Js.Number (Some "-0") = Js.Fin true 0 (-1074)
  /\ Js.Number (Some "1e-400") = Js.Fin false 0 (-1074)
  /\ Js.Number (Some "1e400") = Js.Inf false
  /\ Js.Number (Some "1.7976931348623157e308") = Js.Fin false (2 ^ 53 - 1) 971
  /\ Js.Number (Some "5e-324") = Js.Fin false 1 (-1074)
  /\ Js.Number (Some "Infinity") = Js.Inf false
  /\ Js.Number (Some "abc") = Js.NaN
  /\ Js.Number (Some "12px") = Js.NaN
  /\ Js.Number (Some "-0x10") = Js.NaN
  /\ Js.Number (Some ".") = Js.NaN
  /\ Js.Number None = Js.NaN.
Proof. vm_compute. repeat split. Qed.

Example string_examples :
  Js.split "," "a,,b" = ["a"; ""; "b"]
  /\ Js.split "," "" = [""]
  /\ Js.split "=" "--quality=5=6" = ["--quality"; "5"; "6"]
  /\ Js.trim "  We bP " = "We bP"
  /\ Js.toLowerCase "JPeG" = "jpeg"
  /\ Js.startsWith "--formats=png" "--formats=" = true
  /\ Js.startsWith "--format" "--formats=" = false.
Proof. vm_compute. repeat split. Qed.

Example path_examples :
  Path.basename "/app/images/a.png" = "a.png"
  /\ Path.basename "/a/b//" = "b"
  /\ Path.extname "/app/images/a.png" = ".png"
  /\ Path.extname "archive.tar.GZ" = ".GZ"
  /\ Path.extname ".jpg" = ""
  /\ Path.extname "..jpg" = ".jpg"
  /\ Path.extname ".." = ""
  /\ Path.extname "a." = "."
  /\ Path.extname "noext" = ""
  /\ Path.basename_ext "/app/images/a.png" ".png" = "a"
  /\ Path.basename_ext "/app/images/noext" "" = "noext"
  /\ Path.join "/app/images" "formatted" = "/app/images/formatted".
Proof. vm_compute. repeat split. Qed.

(** ** The world: logs only grow, and in what order *)

Lemma log_err_nil w : log_err [] w = w.
Proof. destruct w; unfold log_err; simpl; by rewrite app_nil_r. Qed.

Lemma log_err_app l1 l2 w : log_err l2 (log_err l1 w) = log_err (l1 ++ l2) w.
Proof. unfold log_err; simpl; by rewrite app_assoc. Qed.

Lemma log_calls_app l1 l2 w : log_calls l2 (log_calls l1 w) = log_calls (l1 ++ l2) w.
Proof. unfold log_calls; simpl; by rewrite app_assoc. Qed.

(** Unfold the monad down to functions on worlds. *)
Ltac unfold_m :=
  unfold bind, ret, throw, try_catch, check, console_log, console_error,
    record_call, exists_on_disk, write_file in *.

(** ** Per-Image Converter: one output *)

Section Convert.

Variable IMAGES_DIR : string.
Variable sharp : Sharp.

(** [convertOne] as a decision table, with the monad unfolded. *)
Lemma convertOne_eq basename opts work o w :
  convertOne sharp basename opts work o w =
  if already_there opts o w then (Return (result_of basename skipped_exists o), w)
  else if dryRun opts then (Return (result_of basename dry_run o), w)
  else match sharp_encode sharp (fn o) with
       | Some e => (Throw e, log_calls [CallClone work; CallEncode (fn o)] w)
       | None =>
           let w' := log_calls [CallClone work; CallEncode (fn o);
                                CallToFile work (fn o) (outFile o)] w in
           match sharp_toFile sharp work (fn o) (outFile o) (disk w) with
           | Some e => (Throw e, w')
           | None => (Return (result_of basename written o),
                      store (outFile o) (Encoded work (fn o)) w')
           end
       end.
Proof.
  unfold convertOne, already_there, clone, apply_fn, toFile. unfold_m.
  destruct (overwrite opts); simpl.
  all: try destruct (bool_decide _); simpl; try reflexivity.
  all: destruct (dryRun opts); simpl; try reflexivity.
  all: destruct (sharp_encode sharp (fn o)); simpl; rewrite ?log_calls_app; simpl;
    [reflexivity|];
    destruct (sharp_toFile sharp work (fn o) (outFile o) (disk w)); simpl;
    rewrite ?log_calls_app; reflexivity.
Qed.

Lemma already_there_true opts o w :
  already_there opts o w = true <->
  overwrite opts = false /\ is_Some (disk w !! outFile o).
Proof.
  unfold already_there. destruct (overwrite opts).
  - split; [discriminate | intros [? _]; discriminate].
  - rewrite bool_decide_eq_true. tauto.
Qed.

Lemma already_there_false opts o w :
  already_there opts o w = false <->
  overwrite opts = true \/ disk w !! outFile o = None.
Proof.
  unfold already_there. destruct (overwrite opts).
  - split; auto.
  - rewrite bool_decide_eq_false, <- eq_None_not_Some.
    split; [auto | intros [?|?]; [discriminate | done]].
Qed.

(** Every step leaves the console alone and only adds clone, encode and
    write calls. *)
Lemma convertOne_frame basename opts work o w :
  let w' := snd (convertOne sharp basename opts work o w) in
  stdout w' = stdout w /\ stderr w' = stderr w
  /\ List.filter is_resize (calls w') = List.filter is_resize (calls w)
  /\ exists cs, calls w' = calls w ++ cs.
Proof.
  rewrite convertOne_eq.
  destruct (already_there opts o w); simpl.
  { repeat split; auto. exists []. by rewrite app_nil_r. }
  destruct (dryRun opts); simpl.
  { repeat split; auto. exists []. by rewrite app_nil_r. }
  destruct (sharp_encode sharp (fn o)); simpl.
  { repeat split; auto; [|eauto]. rewrite List.filter_app; simpl. by rewrite app_nil_r. }
  destruct (sharp_toFile sharp work (fn o) (outFile o) (disk w)); simpl.
  all: repeat split; auto; [|eauto].
  all: rewrite List.filter_app; simpl; by rewrite app_nil_r.
Qed.

(** With overwrite off a step never replaces or removes a file. *)
Lemma convertOne_disk basename opts work o w :
  overwrite opts = false ->
  disk w ⊆ disk (snd (convertOne sharp basename opts work o w)).
Proof.
  intros Hover. rewrite convertOne_eq.
  destruct (already_there opts o w) eqn:Hthere; simpl; [done|].
  destruct (dryRun opts); simpl; [done|].
  destruct (sharp_encode sharp (fn o)); simpl; [done|].
  destruct (sharp_toFile sharp work (fn o) (outFile o) (disk w)); simpl; [done|].
  apply insert_subseteq.
  apply already_there_false in Hthere as [Hthere|Hthere]; [congruence|done].
Qed.

(** *** The second loop *)

Lemma convertAll_cons basename opts work o rest w :
  convertAll sharp basename opts work (o :: rest) w =
  match convertOne sharp basename opts work o w with
  | (Return r, w1) =>
      match convertAll sharp basename opts work rest w1 with
      | (Return rs, w2) => (Return (r :: rs), w2)
      | (Throw e, w2) => (Throw e, w2)
      end
  | (Throw e, w1) => (Throw e, w1)
  end.
Proof.
  simpl. unfold bind, ret.
  destruct (convertOne sharp basename opts work o w) as [[e|r] w1]; [done|].
  by destruct (convertAll sharp basename opts work rest w1) as [[e|rs] w2].
Qed.

Lemma convertAll_frame basename opts work outputs w :
  let w' := snd (convertAll sharp basename opts work outputs w) in
  stdout w' = stdout w /\ stderr w' = stderr w
  /\ List.filter is_resize (calls w') = List.filter is_resize (calls w)
  /\ exists cs, calls w' = calls w ++ cs.
Proof.
  revert w. induction outputs as [|o rest IH]; intros w.
  { simpl. repeat split; auto. exists []. by rewrite app_nil_r. }
  rewrite convertAll_cons.
  pose proof (convertOne_frame basename opts work o w) as (Ho & He & Hr & cs & Hc).
  destruct (convertOne sharp basename opts work o w) as [[e|r] w1]; simpl in *.
  { repeat split; eauto. }
  pose proof (IH w1) as (Ho' & He' & Hr' & cs' & Hc').
  destruct (convertAll sharp basename opts work rest w1) as [[e|rs] w2]; simpl in *.
  all: repeat split; try congruence.
  all: exists (cs ++ cs'); rewrite Hc', Hc; by rewrite app_assoc.
Qed.

Lemma convertAll_disk basename opts work outputs w :
  overwrite opts = false ->
  disk w ⊆ disk (snd (convertAll sharp basename opts work outputs w)).
Proof.
  intros Hover. revert w. induction outputs as [|o rest IH]; intros w; [done|].
  rewrite convertAll_cons.
  pose proof (convertOne_disk basename opts work o w Hover) as H1.
  destruct (convertOne sharp basename opts work o w) as [[e|r] w1]; simpl in *; [done|].
  pose proof (IH w1) as H2.
  destruct (convertAll sharp basename opts work rest w1) as [[e|rs] w2]; simpl in *.
  all: by etrans.
Qed.

(** How a step that returned got there. *)
Lemma convertOne_return basename opts work o w r w1 :
  convertOne sharp basename opts work o w = (Return r, w1) ->
  (already_there opts o w = true /\ r = result_of basename skipped_exists o /\ w1 = w)
  \/ (already_there opts o w = false /\ dryRun opts = true
      /\ r = result_of basename dry_run o /\ w1 = w)
  \/ (already_there opts o w = false /\ dryRun opts = false
      /\ r = result_of basename written o
      /\ w1 = store (outFile o) (Encoded work (fn o))
                (log_calls [CallClone work; CallEncode (fn o);
                            CallToFile work (fn o) (outFile o)] w)).
Proof.
  rewrite convertOne_eq.
  destruct (already_there opts o w); [intros [= <- <-]; auto|].
  destruct (dryRun opts); [intros [= <- <-]; auto 6|].
  destruct (sharp_encode sharp (fn o)); [discriminate|].
  destruct (sharp_toFile sharp work (fn o) (outFile o) (disk w)); [discriminate|].
  simpl. intros [= <- <-]. auto 8.
Qed.

Lemma convertAll_return basename opts work o rest w rs w' :
  convertAll sharp basename opts work (o :: rest) w = (Return rs, w') ->
  exists r w1 rs1,
    convertOne sharp basename opts work o w = (Return r, w1)
    /\ convertAll sharp basename opts work rest w1 = (Return rs1, w')
    /\ rs = r :: rs1.
Proof.
  rewrite convertAll_cons.
  destruct (convertOne sharp basename opts work o w) as [[e|r] w1]; [discriminate|].
  destruct (convertAll sharp basename opts work rest w1) as [[e|rs1] w2] eqn:Hrest;
    [discriminate|].
  intros [= <- <-]. by eexists _, _, _.
Qed.

(** One result per output, in order, each naming its output. *)
Lemma convertAll_results basename opts work outputs w rs w' :
  convertAll sharp basename opts work outputs w = (Return rs, w') ->
  rerun <$> rs = result_of basename skipped_exists <$> outputs.
Proof.
  revert w rs w'. induction outputs as [|o rest IH]; intros w rs w'.
  { simpl. unfold ret. by intros [= <- <-]. }
  intros (r & w1 & rs1 & Hone & Hrest & ->)%convertAll_return.
  rewrite !fmap_cons. f_equal; [|by eapply IH].
  apply convertOne_return in Hone as [(_ & -> & _)|[(_ & _ & -> & _)|(_ & _ & -> & _)]];
    reflexivity.
Qed.

(** With overwrite and dry-run both off, a loop that returns leaves every
    one of its outputs on disk. *)
Lemma convertAll_all_exist basename opts work outputs w rs w' :
  overwrite opts = false -> dryRun opts = false ->
  convertAll sharp basename opts work outputs w = (Return rs, w') ->
  Forall (fun o => is_Some (disk w' !! outFile o)) outputs.
Proof.
  intros Hover Hdry. revert w rs w'.
  induction outputs as [|o rest IH]; intros w rs w'; [constructor|].
  intros (r & w1 & rs1 & Hone & Hrest & ->)%convertAll_return.
  constructor; [|by eapply IH].
  assert (is_Some (disk w1 !! outFile o)) as [c Hc].
  { apply convertOne_return in Hone
      as [(Ht & _ & ->)|[(_ & ? & _)|(_ & _ & _ & ->)]]; [|congruence|].
    - by apply already_there_true in Ht as [_ ?].
    - simpl. rewrite lookup_insert_eq. eauto. }
  pose proof (convertAll_disk basename opts work rest w1 Hover) as Hsub.
  rewrite Hrest in Hsub. simpl in Hsub.
  exists c. by eapply lookup_weaken.
Qed.

(** With overwrite off, outputs that all exist are all skipped, and the
    world is left as it was. *)
Lemma convertAll_skips basename opts work outputs w :
  overwrite opts = false ->
  Forall (fun o => is_Some (disk w !! outFile o)) outputs ->
  convertAll sharp basename opts work outputs w
  = (Return (result_of basename skipped_exists <$> outputs), w).
Proof.
  intros Hover. induction 1 as [|o rest Ho _ IH]; [done|].
  rewrite convertAll_cons, convertOne_eq.
  by rewrite (proj2 (already_there_true opts o w)), IH.
Qed.

(** A dry run returns, writes nothing and calls nothing. *)
Lemma convertAll_dry basename opts work outputs w :
  dryRun opts = true ->
  exists rs, convertAll sharp basename opts work outputs w = (Return rs, w)
             /\ Forall (fun r => status r <> written) rs.
Proof.
  intros Hdry. induction outputs as [|o rest (rs & IH & Hrs)].
  { exists []. split; [done|constructor]. }
  rewrite convertAll_cons, convertOne_eq, Hdry.
  destruct (already_there opts o w); rewrite IH; eexists; split; try reflexivity.
  all: by constructor.
Qed.

(** When the codec accepts every encoder and every write, the loop returns. *)
Lemma convertAll_returns basename opts work outputs w :
  (forall enc, sharp_encode sharp enc = None) ->
  (forall img enc p d, sharp_toFile sharp img enc p d = None) ->
  exists rs w', convertAll sharp basename opts work outputs w = (Return rs, w').
Proof.
  intros Henc Hfile. revert w. induction outputs as [|o rest IH]; intros w.
  { by exists [], w. }
  rewrite convertAll_cons, convertOne_eq, Henc, Hfile. simpl.
  destruct (already_there opts o w); [|destruct (dryRun opts)].
  all: match goal with
       | |- context [convertAll _ _ _ _ _ ?w1] =>
           destruct (IH w1) as (rs & w' & ->)
       end; eauto.
Qed.

(** *** The first loop *)

Lemma valid_token_cases t :
  valid_token t = String.eqb t "webp" || String.eqb t "jpeg" || String.eqb t "jpg"
                  || String.eqb t "png".
Proof.
  unfold valid_token, has. cbn [existsb].
  by rewrite orb_false_r, !orb_assoc.
Qed.

Lemma planOutputs_cons nameNoExt opts t rest w :
  planOutputs IMAGES_DIR nameNoExt opts (t :: rest) w =
  if valid_token t then
    match planOutputs IMAGES_DIR nameNoExt opts rest w with
    | (Return outputs, w') => (Return (spec_of IMAGES_DIR nameNoExt opts t :: outputs), w')
    | (Throw e, w') => (Throw e, w')
    end
  else planOutputs IMAGES_DIR nameNoExt opts rest
         (log_err ["Skipping unsupported output format: " +:+ t] w).
Proof.
  rewrite valid_token_cases.
  change (planOutputs IMAGES_DIR nameNoExt opts (t :: rest)) with
    (if String.eqb t "webp" then
       outputs <- planOutputs IMAGES_DIR nameNoExt opts rest ;;
       ret (mkOutput t (Path.join (OUTPUT_DIR IMAGES_DIR) (nameNoExt +:+ ".webp"))
              (Webp (quality opts) 4) :: outputs)
     else if String.eqb t "jpeg" || String.eqb t "jpg" then
       outputs <- planOutputs IMAGES_DIR nameNoExt opts rest ;;
       ret (mkOutput "jpeg" (Path.join (OUTPUT_DIR IMAGES_DIR) (nameNoExt +:+ ".jpg"))
              (Jpeg (quality opts) true) :: outputs)
     else if String.eqb t "png" then
       outputs <- planOutputs IMAGES_DIR nameNoExt opts rest ;;
       ret (mkOutput t (Path.join (OUTPUT_DIR IMAGES_DIR) (nameNoExt +:+ ".png"))
              (Png (quality opts)) :: outputs)
     else
       console_error ("Skipping unsupported output format: " +:+ t) ;;;
       planOutputs IMAGES_DIR nameNoExt opts rest).
  unfold bind, ret, console_error.
  destruct (String.eqb_spec t "webp") as [->|_].
  { simpl. destruct (planOutputs _ _ _ rest w) as [[e|os] w']; reflexivity. }
  destruct (String.eqb_spec t "jpeg") as [->|_].
  { simpl. destruct (planOutputs _ _ _ rest w) as [[e|os] w']; reflexivity. }
  destruct (String.eqb_spec t "jpg") as [->|_].
  { simpl. destruct (planOutputs _ _ _ rest w) as [[e|os] w']; reflexivity. }
  destruct (String.eqb_spec t "png") as [->|_]; [|reflexivity].
  simpl. destruct (planOutputs _ _ _ rest w) as [[e|os] w']; reflexivity.
Qed.

(** [planOutputs] builds the outputs of the valid tokens, in order, and
    warns about the others, in order; it cannot throw. *)
Lemma planOutputs_eq nameNoExt opts fmts w :
  planOutputs IMAGES_DIR nameNoExt opts fmts w
  = (Return (outputs_for IMAGES_DIR nameNoExt opts fmts),
     log_err (warnings_for fmts) w).
Proof.
  unfold outputs_for, warnings_for. revert w.
  induction fmts as [|t rest IH]; intros w.
  { cbn. unfold ret. by rewrite log_err_nil. }
  rewrite planOutputs_cons. cbn [List.filter].
  destruct (valid_token t); cbn [negb map]; rewrite IH; [done|].
  by rewrite log_err_app.
Qed.

(** *** [processImage], step by step *)

Lemma processImage_eq srcPath opts w :
  processImage IMAGES_DIR sharp srcPath opts w =
  let fan work w1 :=
    convertAll sharp (Path.basename srcPath) opts work
      (outputs_for IMAGES_DIR (nameNoExt srcPath) opts (formats opts))
      (log_err (warnings_for (formats opts)) w1) in
  match sharp_metadata sharp (opened srcPath) with
  | inl e => (Throw e, log_calls [CallMetadata (opened srcPath)] w)
  | inr meta =>
      if shouldResize meta opts then
        let w1 := log_calls [CallMetadata (opened srcPath); CallResize (bounded opts)] w in
        match sharp_resize sharp (bounded opts) with
        | Some e => (Throw e, w1)
        | None => fan (mkPipeline srcPath "none" true (Some (bounded opts))) w1
        end
      else fan (opened srcPath) (log_calls [CallMetadata (opened srcPath)] w)
  end.
Proof.
  unfold processImage, metadata, do_resize. unfold_m. cbv zeta.
  destruct (sharp_metadata sharp (opened srcPath)) as [e|meta]; [done|].
  destruct (shouldResize meta opts).
  - rewrite log_calls_app. cbn [app].
    destruct (sharp_resize sharp (bounded opts)); [done|].
    unfold ret. cbv beta iota. by rewrite planOutputs_eq.
  - unfold ret. cbv beta iota. by rewrite planOutputs_eq.
Qed.

Lemma processImage_disk srcPath opts w :
  overwrite opts = false ->
  disk w ⊆ disk (snd (processImage IMAGES_DIR sharp srcPath opts w)).
Proof.
  intros Hover. rewrite processImage_eq. simpl.
  destruct (sharp_metadata sharp _) as [e|meta]; [done|].
  destruct (shouldResize meta opts); [destruct (sharp_resize sharp _); [done|]|].
  all: match goal with
       | |- context [convertAll ?s ?b ?o ?k ?l ?w1] =>
           apply (convertAll_disk b o k l w1 Hover)
       end.
Qed.

(** *** The loop of [main] *)

Lemma processFiles_cons f rest opts acc w :
  processFiles IMAGES_DIR sharp (f :: rest) opts acc w =
  match processImage IMAGES_DIR sharp f opts w with
  | (Return res, w') => processFiles IMAGES_DIR sharp rest opts (acc ++ res) w'
  | (Throw err, w') =>
      processFiles IMAGES_DIR sharp rest opts acc (log_err [error_line f err] w')
  end.
Proof.
  simpl. unfold bind, try_catch, ret, console_error, error_line.
  by destruct (processImage IMAGES_DIR sharp f opts w) as [[e|res] w'].
Qed.

(** The loop catches everything. *)
Lemma processFiles_returns files opts acc w :
  exists rs w', processFiles IMAGES_DIR sharp files opts acc w = (Return rs, w').
Proof.
  revert acc w. induction files as [|f rest IH]; intros acc w.
  { by exists acc, w. }
  rewrite processFiles_cons.
  destruct (processImage IMAGES_DIR sharp f opts w) as [[e|res] w']; apply IH.
Qed.

Lemma processFiles_app pre post opts acc w :
  processFiles IMAGES_DIR sharp (pre ++ post) opts acc w =
  processFiles IMAGES_DIR sharp post opts
    (returned (processFiles IMAGES_DIR sharp pre opts acc w))
    (snd (processFiles IMAGES_DIR sharp pre opts acc w)).
Proof.
  revert acc w. induction pre as [|f rest IH]; intros acc w; [done|].
  rewrite <- app_comm_cons, !processFiles_cons.
  destruct (processImage IMAGES_DIR sharp f opts w) as [[e|res] w']; apply IH.
Qed.

Lemma processFiles_disk files opts acc w :
  overwrite opts = false ->
  disk w ⊆ disk (snd (processFiles IMAGES_DIR sharp files opts acc w)).
Proof.
  intros Hover. revert acc w. induction files as [|f rest IH]; intros acc w; [done|].
  rewrite processFiles_cons.
  pose proof (processImage_disk f opts w Hover) as H1.
  destruct (processImage IMAGES_DIR sharp f opts w) as [[e|res] w']; simpl in H1.
  - etrans; [exact H1|]. apply (IH acc (log_err [error_line f e] w')).
  - etrans; [exact H1|]. apply IH.
Qed.

End Convert.

(** ** The fan-out: its handle and its failures *)

Section Fan.

Variable IMAGES_DIR : string.
Variable sharp : Sharp.



(** The second loop throws exactly the first error of an encoder or a
    write, and returns when there is none. *)
Lemma convertAll_first_throw basename opts work outputs w :
  match first_throw sharp opts work outputs (disk w) with
  | None => exists rs w', convertAll sharp basename opts work outputs w = (Return rs, w')
  | Some e => exists w', convertAll sharp basename opts work outputs w = (Throw e, w')
  end.
Proof.
  revert w. induction outputs as [|o rest IH]; intros w.
  { by exists [], w. }
  rewrite convertAll_cons, convertOne_eq. cbn [first_throw].
  replace (negb (overwrite opts) && bool_decide (is_Some (disk w !! outFile o)))
    with (already_there opts o w)
    by (unfold already_there; by destruct (overwrite opts)).
  destruct (already_there opts o w); cbn [orb].
  { specialize (IH w).
    destruct (first_throw sharp opts work rest (disk w)) as [e|].
    - destruct IH as (w' & ->). by exists w'.
    - destruct IH as (rs & w' & ->). by eexists _, _. }
  destruct (dryRun opts).
  { specialize (IH w).
    destruct (first_throw sharp opts work rest (disk w)) as [e|].
    - destruct IH as (w' & ->). by exists w'.
    - destruct IH as (rs & w' & ->). by eexists _, _. }
  destruct (sharp_encode sharp (fn o)) as [e|]; [by eexists|].
  cbv zeta.
  destruct (sharp_toFile sharp work (fn o) (outFile o) (disk w)) as [e|]; [by eexists|].
  match goal with
  | |- context [convertAll _ _ _ _ _ ?w1] => specialize (IH w1)
  end.
  cbn [store disk log_calls] in IH.
  destruct (first_throw sharp opts work rest _) as [e|].
  - destruct IH as (w' & ->). by exists w'.
  - destruct IH as (rs & w' & ->). by eexists _, _.
Qed.

(** [processImage] once the file is at the fan-out: the second loop on the
    handle of the file, from the world after the first loop. *)
Lemma processImage_fan f opts w :
  reaches_fan_out sharp opts f = true ->
  processImage IMAGES_DIR sharp f opts w
  = convertAll sharp (Path.basename f) opts (work_handle sharp opts f)
      (outputs_for IMAGES_DIR (nameNoExt f) opts (formats opts))
      (mkWorld (disk w) (stdout w) (stderr w ++ warnings_for (formats opts))
         (calls w ++ CallMetadata (opened f)
            :: match sharp_metadata sharp (opened f) with
               | inr meta =>
                   if shouldResize meta opts then [CallResize (bounded opts)] else []
               | inl _ => []
               end)
         (dirs w)).
Proof.
  unfold reaches_fan_out, work_handle. rewrite processImage_eq. cbv zeta.
  destruct (sharp_metadata sharp (opened f)) as [e|meta]; [discriminate|].
  destruct (shouldResize meta opts); [|done].
  by destruct (sharp_resize sharp (bounded opts)).
Qed.

(** A file that throws adds nothing to the results, and one line to
    stderr. *)
Lemma processFiles_throw f opts acc w err wf :
  processImage IMAGES_DIR sharp f opts w = (Throw err, wf) ->
  processFiles IMAGES_DIR sharp [f] opts acc w
  = (Return acc,
     mkWorld (disk wf) (stdout wf) (stderr wf ++ [error_line f err]) (calls wf)
       (dirs wf)).
Proof. intros Hthrow. by rewrite processFiles_cons, Hthrow. Qed.

End Fan.

(** ** C1: skip, then dry-run, then write *)

(** C1.  For one OutputSpec the status is decided in this order.  When
    overwrite is off and the output path exists, the result is
    skipped-exists and the world is untouched: no codec call, no write.
    Otherwise, when dry-run is on, the result is dry-run and the world is
    untouched as well.  Otherwise the handle is cloned, the encoder applied
    and the file written, in that order, and the result is written with the
    file on disk; a codec call that throws aborts the step there. *)
Theorem status_precedence sharp basename opts work o w :
  (overwrite opts = false -> is_Some (disk w !! outFile o) ->
   convertOne sharp basename opts work o w
   = (Return (result_of basename skipped_exists o), w))
  /\ (overwrite opts = true \/ disk w !! outFile o = None ->
      dryRun opts = true ->
      convertOne sharp basename opts work o w
      = (Return (result_of basename dry_run o), w))
  /\ (overwrite opts = true \/ disk w !! outFile o = None ->
      dryRun opts = false ->
      convertOne sharp basename opts work o w
      = match sharp_encode sharp (fn o) with
        | Some e => (Throw e, log_calls [CallClone work; CallEncode (fn o)] w)
        | None =>
            let w' := log_calls [CallClone work; CallEncode (fn o);
                                 CallToFile work (fn o) (outFile o)] w in
            match sharp_toFile sharp work (fn o) (outFile o) (disk w) with
            | Some e => (Throw e, w')
            | None => (Return (result_of basename written o),
                       store (outFile o) (Encoded work (fn o)) w')
            end
        end)
  /\ (forall r w',
         convertOne sharp basename opts work o w = (Return r, w') ->
         status r = if negb (overwrite opts) && bool_decide (is_Some (disk w !! outFile o))
                    then skipped_exists
                    else if dryRun opts then dry_run else written).
Proof.
  split; [|split; [|split]].
  - intros Hover Hsome.
    by rewrite convertOne_eq, (proj2 (already_there_true opts o w)).
  - intros Hno Hdry.
    by rewrite convertOne_eq, (proj2 (already_there_false opts o w)), Hdry.
  - intros Hno Hdry.
    by rewrite convertOne_eq, (proj2 (already_there_false opts o w)), Hdry.
  - intros r w' Hone.
    replace (negb (overwrite opts) && bool_decide (is_Some (disk w !! outFile o)))
      with (already_there opts o w)
      by (unfold already_there; by destruct (overwrite opts)).
    apply convertOne_return in Hone
      as [(Ht & -> & _)|[(Ht & Hd & -> & _)|(Ht & Hd & -> & _)]];
      rewrite Ht, ?Hd; reflexivity.
Qed.

(** The three cases on [a.webp]: already there, dry run, written. *)
Lemma status_precedence_witness :
  convertOne Sample.codec "a.png" defaults Sample.a_png Sample.a_webp Sample.with_a_webp
  = (Return (mkResult "a.png" "a.webp" "webp" skipped_exists), Sample.with_a_webp)
  /\ convertOne Sample.codec "a.png" Sample.dry Sample.a_png Sample.a_webp Sample.empty
     = (Return (mkResult "a.png" "a.webp" "webp" dry_run), Sample.empty)
  /\ convertOne Sample.codec "a.png" defaults Sample.a_png Sample.a_webp Sample.empty
     = (Return (mkResult "a.png" "a.webp" "webp" written),
        mkWorld {[ "/app/images/formatted/a.webp"
                   := Encoded Sample.a_png (Webp (Js.of_Z 80) 4) ]} [] []
          [CallClone Sample.a_png; CallEncode (Webp (Js.of_Z 80) 4);
           CallToFile Sample.a_png (Webp (Js.of_Z 80) 4) "/app/images/formatted/a.webp"]
          ∅).
Proof.
  split; [|split].
  - apply (status_precedence Sample.codec "a.png" defaults Sample.a_png
             Sample.a_webp Sample.with_a_webp); [reflexivity|].
    exists (Foreign 7). reflexivity.
  - apply (status_precedence Sample.codec "a.png" Sample.dry Sample.a_png
             Sample.a_webp Sample.empty); [right|]; reflexivity.
  - rewrite (proj1 (proj2 (proj2 (status_precedence Sample.codec "a.png" defaults
                                    Sample.a_png Sample.a_webp Sample.empty))));
      [reflexivity | right; reflexivity | reflexivity].
Defined.

(** ** C9: the picture is opened before any flag is looked at *)

(** C9.  Whatever the flags, the first thing [processImage] does is ask the
    codec for the metadata of the source.  When that throws, so does
    [processImage], even in a dry run: the output directory, stdout and
    stderr are as before and only the metadata call has been made; the loop
    of [main] then adds no result for the file and exactly one line to
    stderr, and goes on with the files that follow. *)
Theorem metadata_comes_first IMAGES_DIR sharp srcPath opts w :
  (exists cs, calls (snd (processImage IMAGES_DIR sharp srcPath opts w))
              = calls w ++ CallMetadata (opened srcPath) :: cs)
  /\ forall err, sharp_metadata sharp (opened srcPath) = inl err ->
       let asked := calls w ++ [CallMetadata (opened srcPath)] in
       processImage IMAGES_DIR sharp srcPath opts w
       = (Throw err, mkWorld (disk w) (stdout w) (stderr w) asked (dirs w))
       /\ (forall rest acc,
              processFiles IMAGES_DIR sharp (srcPath :: rest) opts acc w
              = processFiles IMAGES_DIR sharp rest opts acc
                  (mkWorld (disk w) (stdout w)
                     (stderr w ++ [error_line srcPath err]) asked (dirs w)))
       /\ (forall acc,
              let r := processFiles IMAGES_DIR sharp [srcPath] opts acc w in
              returned r = acc
              /\ stderr (snd r) = stderr w ++ [error_line srcPath err]
              /\ stdout (snd r) = stdout w /\ disk (snd r) = disk w).
Proof.
  split.
  - rewrite processImage_eq. cbv zeta.
    destruct (sharp_metadata sharp (opened srcPath)) as [e|meta]; [by exists []|].
    destruct (shouldResize meta opts); [destruct (sharp_resize sharp (bounded opts))|].
    { by eexists. }
    all: match goal with
         | |- context [convertAll ?s ?b ?o ?k ?l ?w1] =>
             destruct (convertAll_frame s b o k l w1) as (_ & _ & _ & cs & ->)
         end; simpl; rewrite <- app_assoc; by eexists.
  - intros err Herr asked.
    assert (Hthrow : processImage IMAGES_DIR sharp srcPath opts w
                     = (Throw err, mkWorld (disk w) (stdout w) (stderr w) asked (dirs w))).
    { rewrite processImage_eq. cbv zeta. by rewrite Herr. }
    split; [exact Hthrow|]. split.
    + intros rest acc. by rewrite processFiles_cons, Hthrow.
    + intros acc r. subst r.
      by rewrite (processFiles_throw IMAGES_DIR sharp srcPath opts acc w err _ Hthrow).
Qed.

(** A dry run over the corrupt picture still throws, and the loop reports
    it. *)
Lemma metadata_comes_first_witness :
  processImage Sample.dir Sample.codec "/app/images/bad.png" Sample.dry Sample.empty
  = (Throw (Sample.error "Input file contains unsupported image format"),
     mkWorld ∅ [] []
       [CallMetadata (mkPipeline "/app/images/bad.png" "none" true None)] ∅)
  /\ returned (processFiles Sample.dir Sample.codec ["/app/images/bad.png"]
                 Sample.dry [] Sample.empty) = []
  /\ stderr (snd (processFiles Sample.dir Sample.codec ["/app/images/bad.png"]
                    Sample.dry [] Sample.empty))
     = ["Error processing bad.png: Input file contains unsupported image format"].
Proof.
  destruct (proj2 (metadata_comes_first Sample.dir Sample.codec "/app/images/bad.png"
                     Sample.dry Sample.empty)
              (Sample.error "Input file contains unsupported image format") eq_refl)
    as (Hthrow & _ & Hone).
  split; [exact Hthrow|].
  destruct (Hone []) as (Hres & Herr & _). split; [exact Hres|exact Herr].
Defined.

(** ** C4: when to resize, and how *)




(** ** The run as a whole *)

Section Run.

Variable IMAGES_DIR : string.
Variable sharp : Sharp.
Variable host : Host.

Lemma log_out_app l1 l2 w : log_out l2 (log_out l1 w) = log_out (l1 ++ l2) w.
Proof. unfold log_out; simpl; by rewrite app_assoc. Qed.

Lemma log_results_eq rs w :
  log_results rs w = (Return tt, log_out (result_line <$> rs) w).
Proof.
  revert w. induction rs as [|r rest IH]; intros w.
  - simpl. unfold ret, log_out. destruct w; simpl. by rewrite app_nil_r.
  - simpl. unfold bind, console_log. by rewrite IH, log_out_app.
Qed.

(** [run] with its steps spelled out. *)
Lemma run_eq opts w :
  run IMAGES_DIR sharp host opts w =
  match host_mkdir host with
  | Some e => (Throw e, w)
  | None =>
      let w0 := made (OUTPUT_DIR IMAGES_DIR) w in
      match host_readdir host with
      | inl e => (Throw e, w0)
      | inr entries =>
          match collectImageFiles IMAGES_DIR entries with
          | [] => (Return [], log_out ["No images found to process."] w0)
          | files =>
              let r := processFiles IMAGES_DIR sharp files opts []
                         (log_out (banner IMAGES_DIR opts files) w0) in
              (Return (returned r),
               log_out ((result_line <$> returned r) ++ [done_line (returned r)])
                 (snd r))
          end
      end
  end.
Proof.
  unfold run, ensureDir, listImageFiles, check, bind, throw, make_dir.
  destruct (host_mkdir host); [done|]. unfold ret at 1. cbv zeta.
  destruct (host_readdir host) as [e|entries]; [done|]. unfold ret at 1.
  destruct (collectImageFiles IMAGES_DIR entries) as [|f files]; [done|].
  unfold console_log at 1. cbv zeta.
  set (fs := f :: files). unfold banner.
  destruct (dryRun opts); unfold console_log at 1, ret at 1; rewrite ?log_out_app;
    cbn [app].
  all: match goal with
       | |- context [processFiles _ _ _ _ _ ?w1] =>
           destruct (processFiles_returns IMAGES_DIR sharp fs opts [] w1)
             as (rs & w' & ->)
       end.
  all: rewrite log_results_eq; unfold console_log, ret, returned; simpl.
  all: by rewrite log_out_app.
Qed.

End Run.

(** ** C7: the fan-out *)

(** C7, as stated, fails when the codec throws during the fan-out: with
    [--quality=500] the sample codec reads [a.png], both default tokens are
    valid, the encoder rejects the quality and [processImage] throws, so the
    file yields no ConversionResult instead of two. *)
Lemma fan_out_counterexample :
  let opts := parseArgs ["node"; "index.mjs"; "--quality=500"] in
  let r := processImage Sample.dir Sample.codec "/app/images/a.png" opts Sample.empty in
  sharp_metadata Sample.codec (opened "/app/images/a.png")
  = inr (mkMetadata (Some (Js.of_Z 800)))
  /\ List.filter valid_token (formats opts) = ["webp"; "jpeg"]
  /\ calls (snd r)
     = [CallMetadata Sample.a_png; CallClone Sample.a_png;
        CallEncode (Webp (Js.of_Z 500) 4)]
  /\ fst r = Throw (Sample.error "Expected integer between 1 and 100 for quality")
  /\ returned r = [].
Proof. vm_compute. repeat split. Qed.

(** C7, amended.  The first loop plans one OutputSpec per valid token, in
    request order, and writes one warning per other token, in order, and
    never throws.  When [processImage] returns, it returns exactly one
    result per valid token, in request order, each with the normalized
    format, and stderr has gained exactly those warnings.  For a file that
    reaches the fan-out (its metadata is read and the resize, if one is
    due, is accepted) the second loop runs over the planned outputs, the
    warnings written; [processImage] then returns exactly when no encoder
    or write call of the fan-out throws; when one does, [processImage]
    throws its error and the loop of [main] adds no result for the file. *)
Theorem fan_out IMAGES_DIR sharp srcPath opts w :
  (forall name fmts w0,
      planOutputs IMAGES_DIR name opts fmts w0
      = (Return (spec_of IMAGES_DIR name opts <$> List.filter valid_token fmts),
         mkWorld (disk w0) (stdout w0)
           (stderr w0
            ++ ((fun t => "Skipping unsupported output format: " +:+ t)
                  <$> List.filter (fun t => negb (valid_token t)) fmts))
           (calls w0) (dirs w0)))
  /\ (forall rs w',
         processImage IMAGES_DIR sharp srcPath opts w = (Return rs, w') ->
         length rs = length (List.filter valid_token (formats opts))
         /\ format <$> rs = normalized <$> List.filter valid_token (formats opts)
         /\ rerun <$> rs
            = result_of (Path.basename srcPath) skipped_exists
              <$> outputs_for IMAGES_DIR (nameNoExt srcPath) opts (formats opts)
         /\ stderr w' = stderr w ++ warnings_for (formats opts))
  /\ (reaches_fan_out sharp opts srcPath = true ->
      let work := work_handle sharp opts srcPath in
      let planned := outputs_for IMAGES_DIR (nameNoExt srcPath) opts (formats opts) in
      processImage IMAGES_DIR sharp srcPath opts w
      = convertAll sharp (Path.basename srcPath) opts work planned
          (mkWorld (disk w) (stdout w) (stderr w ++ warnings_for (formats opts))
             (calls w ++ CallMetadata (opened srcPath)
                :: match sharp_metadata sharp (opened srcPath) with
                   | inr meta =>
                       if shouldResize meta opts then [CallResize (bounded opts)]
                       else []
                   | inl _ => []
                   end)
             (dirs w))
      /\ match first_throw sharp opts work planned (disk w) with
         | None =>
             exists rs w',
               processImage IMAGES_DIR sharp srcPath opts w = (Return rs, w')
         | Some e =>
             (exists w', processImage IMAGES_DIR sharp srcPath opts w = (Throw e, w'))
             /\ forall acc,
                  returned (processFiles IMAGES_DIR sharp [srcPath] opts acc w) = acc
         end).
Proof.
  split; [|split].
  - intros name fmts w0. apply planOutputs_eq.
  - intros rs w'. rewrite processImage_eq. cbv zeta.
    destruct (sharp_metadata sharp (opened srcPath)) as [e|meta]; [discriminate|].
    assert (Hfan : forall work w1,
               stderr w1 = stderr w ->
               convertAll sharp (Path.basename srcPath) opts work
                 (outputs_for IMAGES_DIR (nameNoExt srcPath) opts (formats opts))
                 (log_err (warnings_for (formats opts)) w1) = (Return rs, w') ->
               rerun <$> rs
               = result_of (Path.basename srcPath) skipped_exists
                 <$> outputs_for IMAGES_DIR (nameNoExt srcPath) opts (formats opts)
               /\ stderr w' = stderr w ++ warnings_for (formats opts)).
    { intros work w1 Herr Hall. split; [by eapply convertAll_results|].
      pose proof (convertAll_frame sharp (Path.basename srcPath) opts work
                    (outputs_for IMAGES_DIR (nameNoExt srcPath) opts (formats opts))
                    (log_err (warnings_for (formats opts)) w1)) as (_ & He & _).
      rewrite Hall in He. simpl in He. by rewrite He, Herr. }
    intros Hrun.
    assert (Hres : rerun <$> rs
                   = result_of (Path.basename srcPath) skipped_exists
                     <$> outputs_for IMAGES_DIR (nameNoExt srcPath) opts (formats opts)
                   /\ stderr w' = stderr w ++ warnings_for (formats opts)).
    { destruct (shouldResize meta opts);
        [destruct (sharp_resize sharp (bounded opts)); [discriminate|]|];
        (eapply Hfan; [|exact Hrun]; reflexivity). }
    destruct Hres as [Hres Herr].
    assert (Hfmt : format <$> rs = normalized <$> List.filter valid_token (formats opts)).
    { apply (f_equal (fmap format)) in Hres.
      rewrite <- !list_fmap_compose in Hres. unfold outputs_for in Hres.
      rewrite <- list_fmap_compose in Hres. exact Hres. }
    repeat split; try done.
    apply (f_equal length) in Hfmt. by rewrite !length_fmap in Hfmt.
  - intros Hreach. cbv zeta.
    split; [by apply processImage_fan|].
    rewrite (processImage_fan IMAGES_DIR sharp srcPath opts w Hreach).
    match goal with
    | |- context [convertAll ?s ?b ?o ?k ?l ?w1] =>
        pose proof (convertAll_first_throw s b o k l w1) as Hfirst
    end.
    cbn [disk] in Hfirst.
    destruct (first_throw sharp opts _ _ (disk w)) as [e|]; [|exact Hfirst].
    split; [exact Hfirst|]. intros acc.
    destruct Hfirst as (w' & Hthrow).
    rewrite <- (processImage_fan IMAGES_DIR sharp srcPath opts w Hreach) in Hthrow.
    by rewrite (processFiles_throw IMAGES_DIR sharp srcPath opts acc w e w' Hthrow).
Qed.

(** Three tokens, one unknown; the default quality, which the sample codec
    accepts; and quality 500, which it rejects. *)
Lemma fan_out_witness :
  format <$> returned (processImage Sample.dir Sample.codec "/app/images/a.png"
                         (set_formats ["jpg"; "bmp"; "webp"] defaults) Sample.empty)
  = ["jpeg"; "webp"]
  /\ (exists rs w',
         processImage Sample.dir Sample.codec "/app/images/a.png" defaults Sample.empty
         = (Return rs, w'))
  /\ returned (processFiles Sample.dir Sample.codec ["/app/images/a.png"]
                 (set_quality (Js.of_Z 500) defaults) [] Sample.empty) = [].
Proof.
  split; [|split].
  - destruct (fan_out Sample.dir Sample.codec "/app/images/a.png"
                (set_formats ["jpg"; "bmp"; "webp"] defaults) Sample.empty)
      as (_ & Hcount & _).
    apply (Hcount _ (snd (processImage Sample.dir Sample.codec "/app/images/a.png"
                            (set_formats ["jpg"; "bmp"; "webp"] defaults)
                            Sample.empty))).
    reflexivity.
  - destruct (fan_out Sample.dir Sample.codec "/app/images/a.png" defaults Sample.empty)
      as (_ & _ & Hfirst).
    exact (proj2 (Hfirst eq_refl)).
  - destruct (fan_out Sample.dir Sample.codec "/app/images/a.png"
                (set_quality (Js.of_Z 500) defaults) Sample.empty)
      as (_ & _ & Hfirst).
    exact (proj2 (proj2 (Hfirst eq_refl)) []).
Defined.

(** ** C2: running again *)

Section Rerun.

Variable IMAGES_DIR : string.
Variable sharp : Sharp.

(** In a dry run no result is [written]. *)
Lemma processImage_dry srcPath opts w rs w' :
  dryRun opts = true ->
  processImage IMAGES_DIR sharp srcPath opts w = (Return rs, w') ->
  Forall (fun r => status r <> written) rs.
Proof.
  intros Hdry. rewrite processImage_eq. cbv zeta.
  destruct (sharp_metadata sharp (opened srcPath)) as [e|meta]; [discriminate|].
  destruct (shouldResize meta opts);
    [destruct (sharp_resize sharp (bounded opts)); [discriminate|]|].
  all: match goal with
       | |- context [convertAll ?s ?b ?o ?k ?l ?w1] =>
           destruct (convertAll_dry s b o k l w1 Hdry) as (rs0 & -> & Hrs)
       end; by intros [= <- <-].
Qed.

(** A file that went through with overwrite and dry-run off goes through
    again in any later world, every output skipped, the disk untouched. *)
Lemma processImage_again srcPath opts wa rs wa' wb :
  overwrite opts = false -> dryRun opts = false ->
  processImage IMAGES_DIR sharp srcPath opts wa = (Return rs, wa') ->
  disk wa' ⊆ disk wb ->
  exists wb', processImage IMAGES_DIR sharp srcPath opts wb = (Return (rerun <$> rs), wb')
              /\ disk wb' = disk wb.
Proof.
  intros Hover Hdry Hfirst Hsub. revert Hfirst.
  rewrite !processImage_eq. cbv zeta.
  destruct (sharp_metadata sharp (opened srcPath)) as [e|meta]; [discriminate|].
  assert (Hfan : forall work w1 w2,
             disk w2 = disk wb ->
             convertAll sharp (Path.basename srcPath) opts work
               (outputs_for IMAGES_DIR (nameNoExt srcPath) opts (formats opts)) w1
             = (Return rs, wa') ->
             exists wb',
               convertAll sharp (Path.basename srcPath) opts work
                 (outputs_for IMAGES_DIR (nameNoExt srcPath) opts (formats opts)) w2
               = (Return (rerun <$> rs), wb') /\ disk wb' = disk wb).
  { intros work w1 w2 Hdisk Hall. exists w2. split; [|exact Hdisk].
    rewrite (convertAll_results _ _ _ _ _ _ _ _ Hall).
    apply convertAll_skips; [exact Hover|].
    eapply Forall_impl; [by eapply convertAll_all_exist|].
    intros o [c Hc]. exists c. rewrite Hdisk. by eapply lookup_weaken. }
  destruct (shouldResize meta opts);
    [destruct (sharp_resize sharp (bounded opts)); [discriminate|]|].
  all: intros Hall; eapply Hfan; [|exact Hall]; reflexivity.
Qed.

(** Two passes over the same files, the second in a world that holds all
    the first one leaves: what the first wrote, the second skips. *)
Lemma processFiles_again files opts acc1 acc2 wa wb :
  overwrite opts = false ->
  disk (snd (processFiles IMAGES_DIR sharp files opts acc1 wa)) ⊆ disk wb ->
  (forall r, r ∈ acc1 -> status r = written -> rerun r ∈ acc2) ->
  forall r, r ∈ returned (processFiles IMAGES_DIR sharp files opts acc1 wa) ->
            status r = written ->
            rerun r ∈ returned (processFiles IMAGES_DIR sharp files opts acc2 wb).
Proof.
  intros Hover. revert acc1 acc2 wa wb.
  induction files as [|f rest IH]; intros acc1 acc2 wa wb Hsub Hacc; [exact Hacc|].
  rewrite !processFiles_cons in *.
  pose proof (processImage_disk IMAGES_DIR sharp f opts wb Hover) as Hgrow.
  destruct (processImage IMAGES_DIR sharp f opts wa) as [[e1|rs1] wa'] eqn:Hfirst.
  - (* the file failed the first time: nothing of it to find again *)
    destruct (processImage IMAGES_DIR sharp f opts wb) as [[e2|rs2] wb'];
      simpl in Hgrow; apply (IH _ _ _ _); try (by etrans).
    + exact Hacc.
    + intros r Hr Hw. apply elem_of_app. left. by apply Hacc.
  - destruct (dryRun opts) eqn:Hdry.
    + (* a dry run writes nothing *)
      pose proof (processImage_dry f opts wa rs1 wa' Hdry Hfirst) as Hnone.
      assert (Hacc' : forall acc2' : list ConversionResult,
                 (forall r, r ∈ acc2 -> r ∈ acc2') ->
                 forall r, r ∈ acc1 ++ rs1 -> status r = written -> rerun r ∈ acc2').
      { intros acc2' Hin r [Hr|Hr]%elem_of_app Hw; [by apply Hin, Hacc|].
        rewrite Forall_forall in Hnone. by destruct (Hnone r Hr). }
      destruct (processImage IMAGES_DIR sharp f opts wb) as [[e2|rs2] wb'];
        simpl in Hgrow; apply (IH _ _ _ _); try (by etrans).
      * by apply Hacc'.
      * apply Hacc'. intros r Hr. apply elem_of_app. by left.
    + (* written the first time: all its outputs exist by now *)
      assert (Hsub' : disk wa' ⊆ disk wb).
      { etrans; [|exact Hsub]. by apply processFiles_disk. }
      destruct (processImage_again f opts wa rs1 wa' wb Hover Hdry Hfirst Hsub')
        as (wb' & -> & Hsame).
      apply IH; [by rewrite Hsame|].
      intros r [Hr|Hr]%elem_of_app Hw; apply elem_of_app.
      * left. by apply Hacc.
      * right. by apply list_elem_of_fmap_2.
Qed.

End Rerun.

(** C2.  With overwrite off, run the script, then run it again on what the
    first run left, with the same configuration, codec and listing: every
    result that was written by the first run comes back from the second as
    skipped-exists, for the same source, output and format. *)
Theorem idempotent_rerun IMAGES_DIR sharp host opts w :
  overwrite opts = false ->
  let first := run IMAGES_DIR sharp host opts w in
  let second := run IMAGES_DIR sharp host opts (snd first) in
  forall r, r ∈ returned first -> status r = written ->
            mkResult (src r) (out r) (format r) skipped_exists ∈ returned second.
Proof.
  intros Hover first second. subst first second.
  rewrite !run_eq.
  destruct (host_mkdir host); [by intros r Hr%elem_of_nil|].
  destruct (host_readdir host) as [e|entries]; [by intros r Hr%elem_of_nil|].
  destruct (collectImageFiles IMAGES_DIR entries) as [|f files];
    [by intros r Hr%elem_of_nil|].
  cbv zeta. unfold returned at 1 5. cbn [fst snd].
  fold (@returned ConversionResult). intros r Hr Hw.
  eapply (processFiles_again IMAGES_DIR sharp (f :: files) opts [] []); eauto.
  - reflexivity.
  - by intros r' Hr'%elem_of_nil.
Qed.

(** The sample run, twice. *)
Lemma idempotent_rerun_witness :
  mkResult "a.png" "a.webp" "webp" skipped_exists
  ∈ returned (run Sample.dir Sample.codec Sample.host defaults
                (snd (run Sample.dir Sample.codec Sample.host defaults Sample.empty))).
Proof.
  apply (idempotent_rerun Sample.dir Sample.codec Sample.host defaults Sample.empty
           eq_refl (mkResult "a.png" "a.webp" "webp" written)).
  - apply list_elem_of_In. vm_compute. left. reflexivity.
  - reflexivity.
Defined.

(** ** Paths *)

Lemma split_nonempty sep s : Js.split sep s <> [].
Proof.
  destruct s as [|c r]; simpl; [done|].
  destruct (Ascii.eqb c sep); [done|]. by destruct (Js.split sep r).
Qed.

Lemma split_without sep s : Js.includes s sep = false -> Js.split sep s = [s].
Proof.
  induction s as [|c r IH]; simpl; [done|].
  intros [Hc Hr]%orb_false_elim. by rewrite Hc, IH.
Qed.

Lemma split_app sep a b :
  Js.split sep (a +:+ String sep b) = Js.split sep a ++ Js.split sep b.
Proof.
  induction a as [|c r IH]; simpl.
  - by rewrite Ascii.eqb_refl.
  - destruct (Ascii.eqb c sep); rewrite IH; [done|].
    pose proof (split_nonempty sep r). by destruct (Js.split sep r).
Qed.

Lemma last_nonempty_app l1 l2 :
  Path.last_nonempty (l1 ++ l2)
  = match Path.last_nonempty l2 with
    | "" => Path.last_nonempty l1
    | y => y
    end.
Proof.
  induction l1 as [|x l1 IH]; simpl.
  - by destruct (Path.last_nonempty l2).
  - rewrite IH. by destruct (Path.last_nonempty l2).
Qed.

(** The last component of [dir/name] is [name]. *)
Lemma basename_join dir name :
  name <> "" -> Js.includes name "/" = false ->
  Path.basename (Path.join dir name) = name.
Proof.
  intros Hne Hplain. unfold Path.basename, Path.join, Path.sep.
  change (dir +:+ "/" +:+ name) with (dir +:+ String "/" name).
  rewrite split_app, last_nonempty_app, split_without by done.
  simpl. by destruct name.
Qed.

Lemma from_last_dot_without s : Js.includes s "." = false -> Path.from_last_dot s = None.
Proof.
  induction s as [|c r IH]; simpl; [done|].
  intros [Hc Hr]%orb_false_elim. by rewrite IH, Hc.
Qed.

Lemma from_last_dot_app a ext :
  Js.includes ext "." = false ->
  Path.from_last_dot (a +:+ String "." ext) = Some (String "." ext).
Proof.
  intros Hext. induction a as [|c r IH]; simpl.
  - by rewrite from_last_dot_without.
  - by rewrite IH.
Qed.

Lemma append_length a b : String.length (a +:+ b) = (String.length a + String.length b)%nat.
Proof. induction a; simpl; auto. Qed.





(** The extension of [stem.ext] is [.ext]. *)
Lemma ext_of_stem stem ext :
  stem <> "" -> ext <> "" -> Js.includes ext "." = false ->
  Path.ext_of (stem +:+ "." +:+ ext) = "." +:+ ext.
Proof.
  intros Hstem Hext Hdot. destruct stem as [|c r]; [done|].
  change (String c r +:+ "." +:+ ext) with (String c (r +:+ String "." ext)).
  unfold Path.ext_of. rewrite from_last_dot_app by done.
  destruct (String.eqb_spec (String c (r +:+ String "." ext)) "..") as [Heq|_]; [|done].
  exfalso. injection Heq as -> Heq. destruct r as [|c' r'].
  - simpl in Heq. injection Heq as ->. done.
  - simpl in Heq. injection Heq as -> Heq. by destruct r'.
Qed.

Lemma includes_app a b c :
  Js.includes (a +:+ b) c = Js.includes a c || Js.includes b c.
Proof. induction a as [|d r IH]; simpl; [done|]. by rewrite IH, orb_assoc. Qed.

Lemma string_app_assoc a b c : (a +:+ b) +:+ c = a +:+ (b +:+ c).
Proof.
  induction a as [|x a IH]; [done|].
  change (String x ((a +:+ b) +:+ c) = String x (a +:+ (b +:+ c))). by rewrite IH.
Qed.

(** The pieces of a text joined by a separator they do not hold. *)
Lemma split_concat sep pieces :
  pieces <> [] ->
  Forall (fun p => Js.includes p sep = false) pieces ->
  Js.split sep (String.concat (String sep "") pieces) = pieces.
Proof.
  induction pieces as [|p rest IH]; [done|]. intros _ Hall.
  inversion Hall as [|? ? Hp Hrest]; subst.
  destruct rest as [|q rest]; [by apply split_without|].
  change (String.concat (String sep "") (p :: q :: rest))
    with (p +:+ String sep (String.concat (String sep "") (q :: rest))).
  rewrite split_app, (split_without sep p Hp), IH by done. reflexivity.
Qed.

(** *** The error line of a file *)

(** A format string without [%] is printed as it is, and the argument is
    left for the end. *)
Lemma scan_plain under pending s :
  Js.includes s "%" = false -> Util.scan under pending s = (s, pending).
Proof.
  induction s as [|a tl IH]; [done|].
  cbn [Js.includes]. intros [Ha Htl]%orb_false_elim.
  destruct tl as [|c rest]; [done|].
  change (Util.scan under pending (String a (String c rest)))
    with (if Ascii.eqb a "%" then
            if Ascii.eqb c "%" then
              let r := Util.scan under pending rest in (String "%" (fst r), snd r)
            else if pending && Util.is_placeholder c then
              let r := Util.scan under false rest in (under c +:+ fst r, snd r)
            else
              let r := Util.scan under pending rest in
              (String a (String c (fst r)), snd r)
          else
            let r := Util.scan under pending (String c rest) in
            (String a (fst r), snd r)).
  rewrite Ha. cbv zeta. by rewrite (IH Htl).
Qed.

(** For a file whose name holds no [%] the line is the name and the
    message, as written in the script. *)
Lemma error_line_plain f err :
  Js.includes (Path.basename f) "%" = false ->
  error_line f err
  = "Error processing " +:+ Path.basename f +:+ ": " +:+ error_text err.
Proof.
  intros Hplain. unfold error_line, Util.format.
  rewrite scan_plain by (by rewrite !includes_app, Hplain).
  cbn [fst snd]. by rewrite !string_app_assoc.
Qed.


(** ** C3: one bad file does not stop the run *)

(** C3.  The loop of [main] never throws.  When [processImage] throws on a
    file, whatever the call that threw, the loop writes one line to stderr,
    keeps the results gathered so far and goes on with the files that
    follow from the world the failed file left; and once the images
    directory is there, the output directory is made and the listing is
    read, the process exits with status 0.  The line is what
    [console.error] makes of its two arguments: for a file whose name holds
    no [%] it is [Error processing], the name and the message, as the
    script writes it.  But the name is interpolated into the first argument,
    which [console.error] reads as a format string: for the undecodable
    picture [%s.png] the message takes the place of [%s], and the line
    names a file [boom.png] that does not exist. *)
Theorem isolation IMAGES_DIR sharp host :
  (forall files opts acc w,
      exists rs w', processFiles IMAGES_DIR sharp files opts acc w = (Return rs, w'))
  /\ (forall pre f post opts acc w err wf,
         processImage IMAGES_DIR sharp f opts
           (snd (processFiles IMAGES_DIR sharp pre opts acc w)) = (Throw err, wf) ->
         processFiles IMAGES_DIR sharp (pre ++ f :: post) opts acc w
         = processFiles IMAGES_DIR sharp post opts
             (returned (processFiles IMAGES_DIR sharp pre opts acc w))
             (mkWorld (disk wf) (stdout wf) (stderr wf ++ [error_line f err])
                (calls wf) (dirs wf)))
  /\ (forall f err,
         Js.includes (Path.basename f) "%" = false ->
         error_line f err
         = "Error processing " +:+ Path.basename f +:+ ": " +:+ error_text err)
  /\ (forall argv w,
         host_access host = true -> host_mkdir host = None ->
         (exists entries, host_readdir host = inr entries) ->
         fst (main IMAGES_DIR sharp host argv w) = 0)
  /\ (let unreadable := mkSharp (fun _ => inl (Sample.error "boom")) (fun _ => None)
                          (fun _ => None) (fun _ _ _ _ => None) in
      let listing := mkHost true None (inr [RegularFile "%s.png"]) in
      let r := main Sample.dir unreadable listing ["node"; "index.mjs"] Sample.empty in
      fst r = 0 /\ stderr (snd r) = ["Error processing boom.png:"]).
Proof.
  split; [|split; [|split; [|split]]].
  - apply processFiles_returns.
  - intros pre f post opts acc w err wf Hthrow.
    by rewrite processFiles_app, processFiles_cons, Hthrow.
  - apply error_line_plain.
  - intros argv w Haccess Hmkdir [entries Hread].
    unfold main. rewrite Haccess, run_eq, Hmkdir, Hread.
    by destruct (collectImageFiles IMAGES_DIR entries).
  - by vm_compute.
Qed.

(** The sample run: [bad.png] fails between two good pictures. *)
Lemma isolation_witness :
  fst (main Sample.dir Sample.codec Sample.host ["node"; "index.mjs"] Sample.empty) = 0
  /\ (let before := snd (processFiles Sample.dir Sample.codec ["/app/images/a.png"]
                           defaults [] Sample.empty) in
      processFiles Sample.dir Sample.codec
        ["/app/images/a.png"; "/app/images/bad.png"; "/app/images/b.jpg"]
        defaults [] Sample.empty
      = processFiles Sample.dir Sample.codec ["/app/images/b.jpg"] defaults
          (returned (processFiles Sample.dir Sample.codec ["/app/images/a.png"]
                       defaults [] Sample.empty))
          (mkWorld (disk before) (stdout before)
             (stderr before
              ++ ["Error processing bad.png: Input file contains unsupported image format"])
             (calls before ++ [CallMetadata (opened "/app/images/bad.png")])
             (dirs before)))
  /\ error_line "/app/images/bad.png"
       (Sample.error "Input file contains unsupported image format")
     = "Error processing bad.png: Input file contains unsupported image format".
Proof.
  destruct (isolation Sample.dir Sample.codec Sample.host)
    as (_ & Hskip & Hline & Hexit & _).
  split; [|split].
  - apply Hexit; [reflexivity | reflexivity | eexists; reflexivity].
  - cbv zeta.
    etrans;
      [exact (Hskip ["/app/images/a.png"] "/app/images/bad.png" ["/app/images/b.jpg"]
                defaults [] Sample.empty
                (Sample.error "Input file contains unsupported image format")
                (log_calls [CallMetadata (opened "/app/images/bad.png")]
                   (snd (processFiles Sample.dir Sample.codec ["/app/images/a.png"]
                           defaults [] Sample.empty))) eq_refl)|].
    reflexivity.
  - apply (Hline "/app/images/bad.png"). reflexivity.
Defined.

(** ** C10: two outputs, one path *)



(** ** C8: what counts as an image file *)

Lemma lower_char_idem c : Js.lower_char (Js.lower_char c) = Js.lower_char c.
Proof. by destruct c as [[] [] [] [] [] [] [] []]. Qed.

Lemma toLowerCase_idem s : Js.toLowerCase (Js.toLowerCase s) = Js.toLowerCase s.
Proof. induction s as [|c r IH]; simpl; [done|]. by rewrite lower_char_idem, IH. Qed.

Lemma basename_plain name :
  Js.includes name "/" = false -> Path.basename name = name.
Proof.
  intros Hplain. unfold Path.basename, Path.sep. rewrite split_without by done.
  simpl. by destruct name.
Qed.

Lemma from_last_dot_some s x :
  Path.from_last_dot s = Some x ->
  exists a ext, s = a +:+ String "." ext /\ x = String "." ext
                /\ Js.includes ext "." = false.
Proof.
  revert x. induction s as [|c r IH]; intros x; simpl; [discriminate|].
  destruct (Path.from_last_dot r) as [y|] eqn:Hr.
  - intros [= <-]. destruct (IH y eq_refl) as (a & ext & -> & -> & Hext).
    by exists (String c a), ext.
  - destruct (Ascii.eqb_spec c ".") as [->|_]; [|discriminate].
    intros [= <-]. exists "", r. repeat split.
    clear IH. induction r as [|d r IH]; simpl in *; [done|].
    destruct (Path.from_last_dot r); [discriminate|].
    destruct (Ascii.eqb d "."); [discriminate|]. by apply IH.
Qed.

Lemma supported_exts x :
  In x SUPPORTED_EXTS <->
  exists y, In y ["jpg"; "jpeg"; "png"; "webp"; "tif"; "tiff"; "gif"]
            /\ x = "." +:+ y.
Proof.
  split.
  - simpl. intros [<-|[<-|[<-|[<-|[<-|[<-|[<-|[]]]]]]]]; eexists; (split; [|reflexivity]);
      simpl; auto 10.
  - intros (y & Hy & ->). simpl in Hy.
    destruct Hy as [<-|[<-|[<-|[<-|[<-|[<-|[<-|[]]]]]]]]; simpl; auto 10.
Qed.

Lemma supported_lower y :
  In y ["jpg"; "jpeg"; "png"; "webp"; "tif"; "tiff"; "gif"] -> Js.toLowerCase y = y.
Proof. simpl. intros [<-|[<-|[<-|[<-|[<-|[<-|[<-|[]]]]]]]]; reflexivity. Qed.

Lemma isImageFile_iff n :
  isImageFile n = true <->
  In (Js.toLowerCase (Path.extname n)) SUPPORTED_EXTS.
Proof.
  unfold isImageFile, has. rewrite existsb_exists. split.
  - intros (x & Hx & ->%String.eqb_eq). exact Hx.
  - intros Hin. eexists. split; [exact Hin|]. apply String.eqb_refl.
Qed.

Lemma collectImageFiles_eq dir entries :
  collectImageFiles dir entries
  = (fun e => Path.join dir (name e))
    <$> List.filter (fun e => isFile e && isImageFile (name e)) entries.
Proof.
  induction entries as [|e rest IH]; [done|]. cbn [collectImageFiles List.filter].
  destruct e as [n|n sub|n]; cbn [isDirectory isFile andb].
  - destruct (isImageFile _); cbn [fmap list_fmap]; by rewrite IH.
  - by destruct (String.eqb _ _).
  - exact IH.
Qed.

Lemma includes_dot_lower s :
  Js.includes (Js.toLowerCase s) "." = Js.includes s ".".
Proof.
  induction s as [|c r IH]; simpl; [done|]. rewrite IH. f_equal.
  by destruct c as [[] [] [] [] [] [] [] []].
Qed.

(** The same, on a name without a separator: a stem, a dot, a known word. *)
Lemma isImageFile_plain n :
  Js.includes n "/" = false ->
  isImageFile n = true <->
  exists stem ext,
    n = stem +:+ "." +:+ ext /\ stem <> ""
    /\ In (Js.toLowerCase ext) ["jpg"; "jpeg"; "png"; "webp"; "tif"; "tiff"; "gif"].
Proof.
  intros Hplain. rewrite isImageFile_iff, supported_exts.
  unfold Path.extname. rewrite basename_plain by done. split.
  - intros (y & Hy & Hext). destruct n as [|c r]; [discriminate Hext|].
    unfold Path.ext_of in Hext.
    destruct (String.eqb (String c r) ".."); [discriminate Hext|].
    destruct (Path.from_last_dot r) as [x|] eqn:Hr; [|discriminate Hext].
    apply from_last_dot_some in Hr as (a & ext & -> & -> & Hdot).
    exists (String c a), ext. repeat split; [done|].
    simpl in Hext. injection Hext as Hlow. by rewrite Hlow.
  - intros (stem & ext & -> & Hstem & Hy).
    assert (Hdot : Js.includes ext "." = false).
    { rewrite <- includes_dot_lower.
      by destruct Hy as [<-|[<-|[<-|[<-|[<-|[<-|[<-|[]]]]]]]]. }
    assert (Hext : ext <> "").
    { intros ->. by destruct Hy as [|[|[|[|[|[|[|[]]]]]]]]. }
    rewrite ext_of_stem by done.
    exists (Js.toLowerCase ext). split; [exact Hy|].
    change ("." +:+ ext) with (String "." ext). reflexivity.
Qed.

(** C8.  [listImageFiles] returns, in listing order, the path of every
    direct entry that is a regular file and whose extension, lower-cased,
    is one of jpg, jpeg, png, webp, tif, tiff, gif, and nothing else.  For
    a name without a separator that means: a non-empty stem, a dot, and one
    of these seven words in any mix of cases.  A directory adds nothing,
    whatever its name ([formatted] or not) and whatever it holds, and a
    listing without candidates gives the empty list, not an error. *)
Theorem discovery host dir :
  (forall entries,
      collectImageFiles dir entries
      = (fun e => Path.join dir (name e))
        <$> List.filter (fun e => isFile e && isImageFile (name e)) entries)
  /\ (forall n,
         isImageFile n = true <->
         exists x, In x ["jpg"; "jpeg"; "png"; "webp"; "tif"; "tiff"; "gif"]
                   /\ Js.toLowerCase (Path.extname n) = Js.toLowerCase ("." +:+ x))
  /\ (forall n,
         Js.includes n "/" = false ->
         isImageFile n = true <->
         exists stem ext,
           n = stem +:+ "." +:+ ext /\ stem <> ""
           /\ In (Js.toLowerCase ext) ["jpg"; "jpeg"; "png"; "webp"; "tif"; "tiff"; "gif"])
  /\ (forall pre n sub post,
         collectImageFiles dir (pre ++ Directory n sub :: post)
         = collectImageFiles dir (pre ++ post))
  /\ (forall entries w,
         host_readdir host = inr entries ->
         listImageFiles host dir w = (Return (collectImageFiles dir entries), w))
  /\ (forall entries,
         Forall (fun e => isFile e && isImageFile (name e) = false) entries ->
         collectImageFiles dir entries = []).
Proof.
  split; [|split; [|split; [|split; [|split]]]].
  - apply collectImageFiles_eq.
  - intros n. rewrite isImageFile_iff, supported_exts. split.
    + intros (y & Hy & ->). exists y. split; [exact Hy|].
      change ("." +:+ y) with (String "." y). simpl.
      by rewrite (supported_lower y Hy).
    + intros (y & Hy & ->). exists y. split; [exact Hy|].
      change ("." +:+ y) with (String "." y). simpl.
      by rewrite (supported_lower y Hy).
  - apply isImageFile_plain.
  - intros pre n sub post. rewrite !collectImageFiles_eq, !List.filter_app.
    reflexivity.
  - intros entries w Hread. unfold listImageFiles. by rewrite Hread.
  - intros entries Hnone. rewrite collectImageFiles_eq.
    induction Hnone as [|e rest He _ IH]; [done|].
    cbn [List.filter]. by rewrite He.
Qed.

(** A listing with files, directories and a link. *)
Lemma discovery_witness :
  collectImageFiles Sample.dir
    [RegularFile "a.png"; Directory "formatted" [RegularFile "a.webp"];
     RegularFile "notes.txt"; Special "link.png"; Directory "album.jpg" [];
     RegularFile "a.GIF"; RegularFile ".jpg"]
  = ["/app/images/a.png"; "/app/images/a.GIF"]
  /\ isImageFile "Photo.JpEg" = true
  /\ listImageFiles Sample.host Sample.dir Sample.empty
     = (Return ["/app/images/a.png"; "/app/images/bad.png"; "/app/images/b.jpg";
                "/app/images/a.GIF"], Sample.empty)
  /\ collectImageFiles Sample.dir [Directory "formatted" []; RegularFile "notes.txt"] = [].
Proof.
  destruct (discovery Sample.host Sample.dir)
    as (Heq & _ & Hplain & _ & Hlist & Hnone).
  split; [|split; [|split]].
  - rewrite Heq. reflexivity.
  - apply Hplain; [reflexivity|].
    exists "Photo", "JpEg". repeat split; [done|]. simpl. auto.
  - apply (Hlist [RegularFile "a.png"; Directory "formatted" [RegularFile "a.webp"];
                  RegularFile "bad.png"; RegularFile "b.jpg"; RegularFile "notes.txt";
                  Special "link.png"; Directory "album.jpg" []; RegularFile "a.GIF"]
             Sample.empty).
    reflexivity.
  - apply Hnone. repeat constructor.
Defined.

(** ** Option Resolver *)

Lemma is_space_lower c : Js.is_space (Js.lower_char c) = Js.is_space c.
Proof. by destruct c as [[] [] [] [] [] [] [] []]. Qed.

Lemma trimStart_lower s :
  Js.trimStart (Js.toLowerCase s) = Js.toLowerCase (Js.trimStart s).
Proof.
  induction s as [|c r IH]; simpl; [done|].
  rewrite is_space_lower. by destruct (Js.is_space c).
Qed.

Lemma trimEnd_lower s :
  Js.trimEnd (Js.toLowerCase s) = Js.toLowerCase (Js.trimEnd s).
Proof.
  induction s as [|c r IH]; simpl; [done|].
  rewrite IH, is_space_lower.
  destruct (Js.trimEnd r); simpl; [|done]. by destruct (Js.is_space c).
Qed.

Lemma trimStart_clean s : Js.starts_clean (Js.trimStart s).
Proof.
  induction s as [|c r IH]; simpl; [done|].
  by destruct (Js.is_space c) eqn:Hc.
Qed.

Lemma trimStart_of_clean s : Js.starts_clean s -> Js.trimStart s = s.
Proof. destruct s as [|c r]; simpl; [done|]. by intros ->. Qed.

Lemma trimEnd_clean s : Js.starts_clean s -> Js.starts_clean (Js.trimEnd s).
Proof.
  destruct s as [|c r]; simpl; [done|]. intros Hc.
  destruct (Js.trimEnd r); [by rewrite Hc|done].
Qed.

Lemma trimEnd_idem s : Js.trimEnd (Js.trimEnd s) = Js.trimEnd s.
Proof.
  induction s as [|c r IH]; simpl; [done|].
  destruct (Js.trimEnd r) as [|d t] eqn:Hr.
  - destruct (Js.is_space c) eqn:Hc; simpl; [done|]. by rewrite Hc.
  - simpl in *. by rewrite IH.
Qed.

Lemma trim_idem s : Js.trim (Js.trim s) = Js.trim s.
Proof.
  unfold Js.trim.
  rewrite (trimStart_of_clean (Js.trimEnd (Js.trimStart s)))
    by apply trimEnd_clean, trimStart_clean.
  apply trimEnd_idem.
Qed.

Lemma trim_lower s : Js.trim (Js.toLowerCase s) = Js.toLowerCase (Js.trim s).
Proof. unfold Js.trim. by rewrite trimStart_lower, trimEnd_lower. Qed.

(** Every format token is a piece of the value, trimmed and lower-cased,
    and is not empty. *)
Lemma format_tokens_spec v t :
  In t (format_tokens v) <->
  t <> "" /\ exists piece, In piece (Js.split "," v)
                           /\ t = Js.toLowerCase (Js.trim piece).
Proof.
  unfold format_tokens. rewrite filter_In, in_map_iff. split.
  - intros [(piece & <- & Hin) Hne]. split; [|exists piece; auto].
    intros Heq. by rewrite Heq in Hne.
  - intros (Hne & piece & Hin & ->). split; [exists piece; auto|].
    by destruct (Js.toLowerCase (Js.trim piece)).
Qed.

(** The format tokens are the pieces between the commas, trimmed and
    lower-cased, without the empty ones, in the order and as often as they
    are written. *)
Lemma format_tokens_pieces pieces :
  pieces <> [] ->
  Forall (fun p => Js.includes p "," = false) pieces ->
  format_tokens (String.concat "," pieces) = tokens_of pieces.
Proof.
  intros Hne Hall. unfold format_tokens, tokens_of.
  rewrite (split_concat "," pieces Hne Hall).
  apply List.filter_ext. by intros [|c r].
Qed.

Lemma startsWith_app p v : Js.startsWith (p +:+ v) p = true.
Proof. induction p as [|c r IH]; simpl; [by destruct v|]. by rewrite Ascii.eqb_refl. Qed.

Lemma startsWith_inv s p : Js.startsWith s p = true -> exists v, s = p +:+ v.
Proof.
  revert s. induction p as [|c r IH]; intros s; [by exists s|].
  destruct s as [|d t]; simpl; [discriminate|].
  destruct (Ascii.eqb_spec c d) as [->|_]; [|discriminate].
  intros (v & ->)%IH. by exists v.
Qed.

(** The value read by an option [--name=...]: what follows the first equals
    sign, up to the next one. *)
Lemma value_of_option p v :
  Js.includes p "=" = false ->
  value_of (p +:+ "=" +:+ v) = Js.split "=" v !! 0%nat
  /\ exists x, Js.split "=" v !! 0%nat = Some x.
Proof.
  intros Hp. unfold value_of.
  change (p +:+ "=" +:+ v) with (p +:+ String "=" v).
  rewrite split_app, split_without by done. split; [done|].
  pose proof (split_nonempty "=" v). destruct (Js.split "=" v); [done|]. by eexists.
Qed.

Lemma set_quality_same o : set_quality (quality o) o = o.
Proof. by destruct o. Qed.

Lemma set_maxWidth_same o : set_maxWidth (maxWidth o) o = o.
Proof. by destruct o. Qed.

Lemma parseArg_maxWidth opts v :
  parseArg opts ("--max-width=" +:+ v)
  = set_maxWidth (Js.or_else (Js.Number (Js.split "=" v !! 0%nat)) (maxWidth opts)) opts.
Proof.
  unfold parseArg.
  change ("--max-width=" +:+ v) with ("--max-width" +:+ "=" +:+ v).
  rewrite (proj1 (value_of_option "--max-width" v eq_refl)).
  reflexivity.
Qed.

Lemma parseArg_quality opts v :
  parseArg opts ("--quality=" +:+ v)
  = set_quality (Js.or_else (Js.Number (Js.split "=" v !! 0%nat)) (quality opts)) opts.
Proof.
  unfold parseArg.
  change ("--quality=" +:+ v) with ("--quality" +:+ "=" +:+ v).
  rewrite (proj1 (value_of_option "--quality" v eq_refl)).
  reflexivity.
Qed.

Lemma parseArg_formats opts v :
  parseArg opts ("--formats=" +:+ v)
  = match Js.split "=" v !! 0%nat with
    | Some x => if Js.truthy_string x then set_formats (format_tokens x) opts else opts
    | None => opts
    end.
Proof.
  unfold parseArg.
  change ("--formats=" +:+ v) with ("--formats" +:+ "=" +:+ v).
  rewrite (proj1 (value_of_option "--formats" v eq_refl)).
  reflexivity.
Qed.

(** Each turn keeps [maxWidth] and [quality] truthy. *)
Lemma parseArg_truthy opts arg :
  Js.truthy (maxWidth opts) = true -> Js.truthy (quality opts) = true ->
  Js.truthy (maxWidth (parseArg opts arg)) = true
  /\ Js.truthy (quality (parseArg opts arg)) = true.
Proof.
  intros Hw Hq. unfold parseArg.
  destruct (String.eqb arg "--dry-run"); [done|].
  destruct (String.eqb arg "--overwrite"); [done|].
  destruct (Js.startsWith arg "--max-width=").
  { simpl. split; [|done]. unfold Js.or_else.
    by destruct (Js.truthy (Js.Number (value_of arg))) eqn:Hv. }
  destruct (Js.startsWith arg "--quality=").
  { simpl. split; [done|]. unfold Js.or_else.
    by destruct (Js.truthy (Js.Number (value_of arg))) eqn:Hv. }
  destruct (Js.startsWith arg "--formats="); [|done].
  destruct (value_of arg) as [v|]; [|done]. by destruct (Js.truthy_string v).
Qed.

(** ** C6: the numbers are taken as they come *)

(** C6, as stated, fails: [--quality=500] resolves quality to 500, above
    100; [--quality=2.5] to a number that is not whole; [--max-width=-5]
    resolves maxWidth to a negative number. *)
Lemma numeric_options_counterexample :
  quality (parseArgs ["node"; "index.mjs"; "--quality=500"]) = Js.of_Z 500
  /\ quality_in_range (quality (parseArgs ["node"; "index.mjs"; "--quality=500"])) = false
  /\ quality_in_range (quality (parseArgs ["node"; "index.mjs"; "--quality=2.5"])) = false
  /\ maxWidth (parseArgs ["node"; "index.mjs"; "--max-width=-5"]) = Js.of_Z (-5)
  /\ positive_integer (maxWidth (parseArgs ["node"; "index.mjs"; "--max-width=-5"])) = false.
Proof. vm_compute. auto. Qed.

(** C6, amended.  For every argument list the resolved [maxWidth] and
    [quality] are numbers other than NaN and zero; nothing makes them
    positive, whole or at most 100.  A numeric override takes the text up
    to the next equals sign, converts it with [Number], and is ignored, the
    value held so far being kept, exactly when the result is NaN or a
    zero. *)
Theorem numeric_options :
  (forall argv,
      Js.truthy (maxWidth (parseArgs argv)) = true
      /\ Js.truthy (quality (parseArgs argv)) = true)
  /\ (forall opts v,
         let x := Js.Number (Js.split "=" v !! 0%nat) in
         parseArg opts ("--max-width=" +:+ v)
         = (if Js.truthy x then set_maxWidth x opts else opts)
         /\ parseArg opts ("--quality=" +:+ v)
            = (if Js.truthy x then set_quality x opts else opts))
  /\ (forall x, Js.truthy x = false <-> x = Js.NaN \/ exists neg e, x = Js.Fin neg 0 e).
Proof.
  split; [|split].
  - intros argv. unfold parseArgs.
    assert (Hinv : forall args opts,
               Js.truthy (maxWidth opts) = true -> Js.truthy (quality opts) = true ->
               Js.truthy (maxWidth (fold_left parseArg args opts)) = true
               /\ Js.truthy (quality (fold_left parseArg args opts)) = true).
    { induction args as [|arg rest IH]; intros opts Hw Hq; [done|].
      simpl. by apply IH; apply parseArg_truthy. }
    by apply Hinv.
  - intros opts v x. subst x. rewrite parseArg_maxWidth, parseArg_quality.
    unfold Js.or_else.
    destruct (Js.truthy (Js.Number (Js.split "=" v !! 0%nat)));
      by rewrite ?set_maxWidth_same, ?set_quality_same.
  - intros x. split.
    + destruct x as [|neg|neg m e]; simpl; [auto|discriminate|].
      intros Hm%negb_false_iff%Z.eqb_eq. subst m. right. by exists neg, e.
    + by intros [->|(neg & e & ->)].
Qed.

(** ** C5: the resolver forgives everything *)

(** C5, as stated, fails on its last clause: the value [,] of [--formats]
    is not empty but has no token, and the format list becomes empty
    instead of staying at the defaults.  And a malformed number keeps the
    value held so far, which need not be the default. *)
Lemma option_resolver_counterexample :
  format_tokens "," = []
  /\ formats (parseArgs ["node"; "index.mjs"; "--formats=,"]) = []
  /\ formats (parseArgs ["node"; "index.mjs"; "--formats= , "]) <> formats defaults
  /\ quality (parseArgs ["node"; "index.mjs"; "--quality=50"; "--quality=abc"])
     = Js.of_Z 50.
Proof. vm_compute. repeat split; discriminate. Qed.

(** C5, amended.  [parseArgs] is a total function of the argument list: it
    skips the first two entries and folds the rest from the left over the
    defaults (maxWidth 1600, quality 80, formats webp and jpeg, both flags
    off).  The two flags switch on; an argument it does not know changes
    nothing; a number that converts to NaN or zero leaves the option at the
    value held so far.  For [--formats=] the text up to the next equals
    sign is read: when it is empty the option is ignored, otherwise the
    formats become its comma-separated pieces, trimmed, lower-cased, the
    empty ones dropped, in the order and as often as they are written,
    which may leave no format at all. *)
Theorem option_resolver :
  (parseArgs [] = defaults /\ (forall a, parseArgs [a] = defaults)
   /\ forall a b, parseArgs [a; b] = defaults)
  /\ (forall a b args arg,
         parseArgs (a :: b :: args ++ [arg]) = parseArg (parseArgs (a :: b :: args)) arg)
  /\ (forall opts,
         parseArg opts "--dry-run" = set_dryRun true opts
         /\ parseArg opts "--overwrite" = set_overwrite true opts)
  /\ (forall opts arg,
         arg <> "--dry-run" -> arg <> "--overwrite" ->
         Js.startsWith arg "--max-width=" = false ->
         Js.startsWith arg "--quality=" = false ->
         Js.startsWith arg "--formats=" = false ->
         parseArg opts arg = opts)
  /\ (forall opts v,
         Js.truthy (Js.Number (Js.split "=" v !! 0%nat)) = false ->
         parseArg opts ("--max-width=" +:+ v) = opts
         /\ parseArg opts ("--quality=" +:+ v) = opts)
  /\ (forall opts v,
         exists x, Js.split "=" v !! 0%nat = Some x
                   /\ parseArg opts ("--formats=" +:+ v)
                      = if Js.truthy_string x then set_formats (format_tokens x) opts
                        else opts)
  /\ (forall pieces,
         pieces <> [] ->
         Forall (fun p => Js.includes p "," = false) pieces ->
         format_tokens (String.concat "," pieces) = tokens_of pieces)
  /\ (forall opts pieces,
         Forall (fun p => Js.includes p "," = false) pieces ->
         Js.includes (String.concat "," pieces) "=" = false ->
         String.concat "," pieces <> "" ->
         formats (parseArg opts ("--formats=" +:+ String.concat "," pieces))
         = tokens_of pieces)
  /\ (forall x t,
         In t (format_tokens x) -> Js.trim t = t /\ Js.toLowerCase t = t).
Proof.
  split; [|split; [|split; [|split; [|split; [|split; [|split; [|split]]]]]]].
  - done.
  - intros a b args arg. unfold parseArgs. simpl. by rewrite !drop_0, fold_left_app.
  - done.
  - intros opts arg Hdry Hover Hw Hq Hf. unfold parseArg.
    rewrite (proj2 (String.eqb_neq _ _) Hdry), (proj2 (String.eqb_neq _ _) Hover).
    by rewrite Hw, Hq, Hf.
  - intros opts v Hbad. rewrite parseArg_maxWidth, parseArg_quality.
    unfold Js.or_else. rewrite Hbad.
    by rewrite set_maxWidth_same, set_quality_same.
  - intros opts v. rewrite parseArg_formats.
    destruct (proj2 (value_of_option "--formats" v eq_refl)) as [x Hx].
    exists x. by rewrite Hx.
  - apply format_tokens_pieces.
  - intros opts pieces Hcomma Heq Hne. rewrite parseArg_formats.
    rewrite (split_without "=" _ Heq). cbn [lookup list_lookup].
    destruct (String.concat "," pieces) as [|c r] eqn:Hjoin; [done|].
    cbn [Js.truthy_string set_formats formats]. rewrite <- Hjoin.
    apply format_tokens_pieces; [|done]. intros ->. discriminate.
  - intros x t (_ & piece & _ & ->)%format_tokens_spec. split.
    + by rewrite trim_lower, trim_idem.
    + apply toLowerCase_idem.
Qed.

(** Arguments that change nothing, a format list with a token written
    twice and an empty piece, and a token of a format list. *)
Lemma option_resolver_witness :
  parseArg defaults "--verbose" = defaults
  /\ parseArg defaults "--quality=abc" = defaults
  /\ parseArg defaults "--max-width=0" = defaults
  /\ formats (parseArg defaults "--formats= PNG ,webp,,png") = ["png"; "webp"; "png"]
  /\ Js.trim "png" = "png".
Proof.
  destruct option_resolver
    as (_ & _ & _ & Hunknown & Hbad & _ & _ & Hformats & Htoken).
  split; [|split; [|split; [|split]]].
  - apply Hunknown; done.
  - apply (Hbad defaults "abc"). reflexivity.
  - apply (Hbad defaults "0"). reflexivity.
  - apply (Hformats defaults [" PNG "; "webp"; ""; "png"]);
      [by repeat constructor | reflexivity | discriminate].
  - apply (Htoken " PNG ,webp" "png"). simpl. auto.
Defined.

(** ** The scenario of the specification

    [a.png], 800 wide, and [b.jpg], 2000 wide, with the default options in
    an empty output directory: four files written, the second picture
    resized, and the summary line says so. *)
Example scenario :
  let host := mkHost true None (inr [RegularFile "a.png"; RegularFile "b.jpg"]) in
  let r := main Sample.dir Sample.codec host ["node"; "index.mjs"] Sample.empty in
  fst r = 0
  /\ stdout (snd r)
     = ["Found 2 image(s). Output -> /app/images/formatted";
        "written       a.png -> a.webp [webp]";
        "written       a.png -> a.jpg [jpeg]";
        "written       b.jpg -> b.webp [webp]";
        "written       b.jpg -> b.jpg [jpeg]";
        "Done. written=4, skipped=0, dry=0"]
  /\ stderr (snd r) = []
  /\ List.filter is_resize (calls (snd r))
     = [CallResize (mkResize (Js.of_Z 1600) true "inside")]
  /\ dom (disk (snd r))
     = {[ "/app/images/formatted/a.webp"; "/app/images/formatted/a.jpg";
          "/app/images/formatted/b.webp"; "/app/images/formatted/b.jpg" ]}.
Proof. vm_compute. repeat split. Qed.

(** * Further properties of the script *)

(** ** [parseArgs]: flags and numbers *)

Lemma parseArg_dryRun opts arg :
  dryRun (parseArg opts arg) = dryRun opts || String.eqb arg "--dry-run".
Proof.
  unfold parseArg.
  destruct (String.eqb arg "--dry-run"); [by rewrite orb_true_r|].
  rewrite orb_false_r.
  destruct (String.eqb arg "--overwrite"); [done|].
  destruct (Js.startsWith arg "--max-width="); [done|].
  destruct (Js.startsWith arg "--quality="); [done|].
  destruct (Js.startsWith arg "--formats="); [|done].
  destruct (value_of arg) as [v|]; [|done]. by destruct (Js.truthy_string v).
Qed.

Lemma parseArg_overwrite opts arg :
  overwrite (parseArg opts arg) = overwrite opts || String.eqb arg "--overwrite".
Proof.
  unfold parseArg.
  destruct (String.eqb_spec arg "--dry-run") as [->|_]; [by rewrite orb_false_r|].
  destruct (String.eqb arg "--overwrite"); [by rewrite orb_true_r|].
  rewrite orb_false_r.
  destruct (Js.startsWith arg "--max-width="); [done|].
  destruct (Js.startsWith arg "--quality="); [done|].
  destruct (Js.startsWith arg "--formats="); [|done].
  destruct (value_of arg) as [v|]; [|done]. by destruct (Js.truthy_string v).
Qed.

Lemma fold_flag (get : Options -> bool) (flag : string) :
  (forall opts arg, get (parseArg opts arg) = get opts || String.eqb arg flag) ->
  forall args opts,
    get (fold_left parseArg args opts) = get opts || existsb (fun a => String.eqb a flag) args.
Proof.
  intros Hstep. induction args as [|a rest IH]; intros opts; simpl.
  - by rewrite orb_false_r.
  - by rewrite IH, Hstep, orb_assoc.
Qed.

(** X1.  The flags are on exactly when they occur among the arguments after
    the first two: nothing switches them off again, and the two leading
    entries of [argv] (the interpreter and the script) are never read as
    options. *)
Theorem flags_set_iff_present argv :
  (dryRun (parseArgs argv) = true <-> In "--dry-run" (drop 2 argv))
  /\ (overwrite (parseArgs argv) = true <-> In "--overwrite" (drop 2 argv)).
Proof.
  unfold parseArgs.
  rewrite (fold_flag dryRun "--dry-run" parseArg_dryRun),
    (fold_flag overwrite "--overwrite" parseArg_overwrite).
  simpl. rewrite !existsb_exists. split; split.
  - intros (a & Ha & ->%String.eqb_eq). exact Ha.
  - intros Hin. eexists. split; [exact Hin|]. apply String.eqb_refl.
  - intros (a & Ha & ->%String.eqb_eq). exact Ha.
  - intros Hin. eexists. split; [exact Hin|]. apply String.eqb_refl.
Qed.

Lemma parseArg_quality_step opts arg :
  quality (parseArg opts arg)
  = if sets_number "--quality=" arg then Js.Number (value_of arg) else quality opts.
Proof.
  unfold parseArg, sets_number.
  destruct (String.eqb_spec arg "--dry-run") as [->|_]; [done|].
  destruct (String.eqb_spec arg "--overwrite") as [->|_]; [done|].
  destruct (Js.startsWith arg "--max-width=") eqn:Hw.
  { apply startsWith_inv in Hw as [v ->]. done. }
  destruct (Js.startsWith arg "--quality=") eqn:Hq.
  { simpl. unfold Js.or_else. by destruct (Js.truthy _). }
  destruct (Js.startsWith arg "--formats="); [|done].
  destruct (value_of arg) as [v|]; [|done]. by destruct (Js.truthy_string v).
Qed.

Lemma parseArg_maxWidth_step opts arg :
  maxWidth (parseArg opts arg)
  = if sets_number "--max-width=" arg then Js.Number (value_of arg) else maxWidth opts.
Proof.
  unfold parseArg, sets_number.
  destruct (String.eqb_spec arg "--dry-run") as [->|_]; [done|].
  destruct (String.eqb_spec arg "--overwrite") as [->|_]; [done|].
  destruct (Js.startsWith arg "--max-width=") eqn:Hw.
  { simpl. unfold Js.or_else. by destruct (Js.truthy _). }
  destruct (Js.startsWith arg "--quality="); [done|].
  destruct (Js.startsWith arg "--formats="); [|done].
  destruct (value_of arg) as [v|]; [|done]. by destruct (Js.truthy_string v).
Qed.

Lemma fold_number (get : Options -> Js.number) (prefix : string) :
  (forall opts arg,
      get (parseArg opts arg)
      = if sets_number prefix arg then Js.Number (value_of arg) else get opts) ->
  forall post opts,
    Forall (fun a => sets_number prefix a = false) post ->
    get (fold_left parseArg post opts) = get opts.
Proof.
  intros Hstep. induction post as [|a rest IH]; intros opts Hpost; [done|].
  inversion Hpost as [|? ? Ha Hrest]; subst. simpl.
  by rewrite IH, Hstep, Ha.
Qed.

(** X2.  Of several [--quality=] (or [--max-width=]) arguments the last one
    whose value converts to a number other than NaN and zero decides; the
    arguments of other kinds and the overrides that do not convert play no
    part.  Without any such argument the default stays. *)
Theorem last_number_wins a b :
  (forall pre arg post,
      sets_number "--quality=" arg = true ->
      Forall (fun x => sets_number "--quality=" x = false) post ->
      quality (parseArgs (a :: b :: pre ++ arg :: post)) = Js.Number (value_of arg))
  /\ (forall pre arg post,
         sets_number "--max-width=" arg = true ->
         Forall (fun x => sets_number "--max-width=" x = false) post ->
         maxWidth (parseArgs (a :: b :: pre ++ arg :: post)) = Js.Number (value_of arg))
  /\ (forall args,
         Forall (fun x => sets_number "--quality=" x = false) args ->
         quality (parseArgs (a :: b :: args)) = Js.of_Z 80)
  /\ (forall args,
         Forall (fun x => sets_number "--max-width=" x = false) args ->
         maxWidth (parseArgs (a :: b :: args)) = Js.of_Z 1600).
Proof.
  unfold parseArgs. split; [|split; [|split]].
  - intros pre arg post Harg Hpost. simpl. rewrite ?drop_0, fold_left_app. simpl.
    rewrite (fold_number quality "--quality=" parseArg_quality_step) by done.
    by rewrite parseArg_quality_step, Harg.
  - intros pre arg post Harg Hpost. simpl. rewrite ?drop_0, fold_left_app. simpl.
    rewrite (fold_number maxWidth "--max-width=" parseArg_maxWidth_step) by done.
    by rewrite parseArg_maxWidth_step, Harg.
  - intros args Hargs. simpl. rewrite ?drop_0.
    by rewrite (fold_number quality "--quality=" parseArg_quality_step).
  - intros args Hargs. simpl. rewrite ?drop_0.
    by rewrite (fold_number maxWidth "--max-width=" parseArg_maxWidth_step).
Qed.

(** Two overrides that convert, one that does not, and other arguments. *)
Lemma last_number_wins_witness :
  quality (parseArgs ["node"; "index.mjs"; "--quality=50"; "--quality=70";
                      "--quality=abc"; "--dry-run"])
  = Js.of_Z 70
  /\ maxWidth (parseArgs ["node"; "index.mjs"; "--max-width=0"; "--quality=70"])
     = Js.of_Z 1600.
Proof.
  destruct (last_number_wins "node" "index.mjs") as (Hq & _ & _ & Hw).
  split.
  - apply (Hq ["--quality=50"] "--quality=70" ["--quality=abc"; "--dry-run"]);
      [reflexivity|]. repeat constructor.
  - apply (Hw ["--max-width=0"; "--quality=70"]). repeat constructor.
Defined.

(** ** [main]: how it ends and what it prints *)

(** X3.  [main] ends with status 0 exactly when the images directory can be
    accessed, the output directory can be made and the listing can be read;
    in every other case it ends with status 1.  What happens to the single
    files never shows in the exit status. *)
Theorem exit_status IMAGES_DIR sharp host argv w :
  (fst (main IMAGES_DIR sharp host argv w) = 0 <->
   host_access host = true /\ host_mkdir host = None
   /\ exists entries, host_readdir host = inr entries)
  /\ (fst (main IMAGES_DIR sharp host argv w) = 0
      \/ fst (main IMAGES_DIR sharp host argv w) = 1).
Proof.
  unfold main. rewrite run_eq.
  destruct (host_access host); [|split; [split; [done|by intros [? _]]|by right]].
  destruct (host_mkdir host) as [e|];
    [split; [split; [done|by intros (_ & ? & _)]|by right]|].
  destruct (host_readdir host) as [e|entries];
    [split; [split; [done|by intros (_ & _ & ? & ?)]|by right]|].
  destruct (collectImageFiles IMAGES_DIR entries); simpl.
  all: split; [split; [intros _; eauto|done]|by left].
Qed.

(** X4.  When [main] ends with status 1 it has done nothing but complain:
    one line on stderr (the missing directory, or the error that [mkdir] or
    [readdir] threw), nothing on stdout, no call into the codec and no file
    written. *)
Theorem fatal_start_does_nothing IMAGES_DIR sharp host argv w :
  fst (main IMAGES_DIR sharp host argv w) = 1 ->
  let w' := snd (main IMAGES_DIR sharp host argv w) in
  disk w' = disk w /\ calls w' = calls w /\ stdout w' = stdout w
  /\ stderr w'
     = stderr w
       ++ [if host_access host then
             match host_mkdir host, host_readdir host with
             | Some e, _ => inspect e
             | None, inl e => inspect e
             | None, inr _ => ""
             end
           else "Missing images directory: " +:+ IMAGES_DIR].
Proof.
  unfold main. rewrite run_eq.
  destruct (host_access host); [|done].
  destruct (host_mkdir host) as [e|]; [done|].
  destruct (host_readdir host) as [e|entries]; [done|].
  by destruct (collectImageFiles IMAGES_DIR entries).
Qed.

(** The images directory is missing. *)
Lemma fatal_start_does_nothing_witness :
  let w' := snd (main Sample.dir Sample.codec
                   (mkHost false None (inr [RegularFile "a.png"]))
                   ["node"; "index.mjs"] Sample.empty) in
  disk w' = ∅ /\ calls w' = [] /\ stdout w' = []
  /\ stderr w' = ["Missing images directory: /app/images"].
Proof.
  exact (fatal_start_does_nothing Sample.dir Sample.codec
           (mkHost false None (inr [RegularFile "a.png"]))
           ["node"; "index.mjs"] Sample.empty eq_refl).
Defined.

Lemma processImage_stdout IMAGES_DIR sharp f opts w :
  stdout (snd (processImage IMAGES_DIR sharp f opts w)) = stdout w.
Proof.
  rewrite processImage_eq. cbv zeta.
  destruct (sharp_metadata sharp (opened f)) as [e|meta]; [done|].
  destruct (shouldResize meta opts);
    [destruct (sharp_resize sharp (bounded opts)); [done|]|].
  all: match goal with
       | |- context [convertAll ?s ?b ?o ?k ?l ?w1] =>
           destruct (convertAll_frame s b o k l w1) as (-> & _)
       end; done.
Qed.

Lemma processFiles_stdout IMAGES_DIR sharp files opts acc w :
  stdout (snd (processFiles IMAGES_DIR sharp files opts acc w)) = stdout w.
Proof.
  revert acc w. induction files as [|f rest IH]; intros acc w; [done|].
  rewrite processFiles_cons.
  pose proof (processImage_stdout IMAGES_DIR sharp f opts w) as Hone.
  destruct (processImage IMAGES_DIR sharp f opts w) as [[e|res] w1];
    rewrite IH; exact Hone.
Qed.

Lemma count_status_total rs :
  (count_status written rs + count_status skipped_exists rs
   + count_status dry_run rs)%nat = length rs.
Proof.
  unfold count_status. induction rs as [|r rest IH]; [done|].
  cbn [List.filter]. destruct (status r); cbn [status_text].
  all: repeat first [ rewrite bool_decide_eq_true_2 by done
                    | rewrite bool_decide_eq_false_2 by done ].
  all: cbn [length status_text] in *; lia.
Qed.

(** X5.  After a start without error [main] prints, when no image is found,
    the single line saying so (also in a dry run); otherwise the count of
    images found, the dry-run notice if asked for, one line per result in
    the order the results were produced, and the summary, whose three
    counts add up to the number of result lines. *)
Theorem report_shape IMAGES_DIR sharp host argv w entries :
  host_access host = true -> host_mkdir host = None ->
  host_readdir host = inr entries ->
  let opts := parseArgs argv in
  let files := collectImageFiles IMAGES_DIR entries in
  let rs := returned (run IMAGES_DIR sharp host opts w) in
  stdout (snd (main IMAGES_DIR sharp host argv w))
  = stdout w
    ++ match files with
       | [] => ["No images found to process."]
       | _ => banner IMAGES_DIR opts files ++ (result_line <$> rs) ++ [done_line rs]
       end
  /\ (count_status written rs + count_status skipped_exists rs
      + count_status dry_run rs)%nat = length rs.
Proof.
  intros Haccess Hmkdir Hread opts files rs. split; [|apply count_status_total].
  subst rs. unfold main. fold opts. rewrite Haccess, run_eq, Hmkdir, Hread. fold files.
  destruct files as [|f rest] eqn:Hfiles; [done|].
  cbv zeta. unfold returned at 3 4. cbn [fst snd].
  set (w0 := made (OUTPUT_DIR IMAGES_DIR) w).
  destruct (processFiles_returns IMAGES_DIR sharp (f :: rest) opts []
              (log_out (banner IMAGES_DIR opts (f :: rest)) w0)) as (rs & w1 & Hrun).
  pose proof (processFiles_stdout IMAGES_DIR sharp (f :: rest) opts []
                (log_out (banner IMAGES_DIR opts (f :: rest)) w0)) as Hout.
  rewrite Hrun in *. cbn [fst snd returned] in *. unfold log_out at 1. cbn [stdout].
  rewrite Hout. simpl. by rewrite <- !app_assoc.
Qed.

(** The sample run. *)
Lemma report_shape_witness :
  stdout (snd (main Sample.dir Sample.codec Sample.host ["node"; "index.mjs"; "--dry-run"]
                 Sample.with_a_webp))
  = ["Found 4 image(s). Output -> /app/images/formatted";
     "(dry-run) No files will be written";
     "skipped-exists a.png -> a.webp [webp]";
     "dry-run       a.png -> a.jpg [jpeg]";
     "dry-run       b.jpg -> b.webp [webp]";
     "dry-run       b.jpg -> b.jpg [jpeg]";
     "skipped-exists a.GIF -> a.webp [webp]";
     "dry-run       a.GIF -> a.jpg [jpeg]";
     "Done. written=0, skipped=2, dry=4"].
Proof.
  pose proof (report_shape Sample.dir Sample.codec Sample.host
                ["node"; "index.mjs"; "--dry-run"] Sample.with_a_webp _
                eq_refl eq_refl eq_refl) as [H _].
  rewrite H. reflexivity.
Defined.

(** ** The codec calls of a run *)

Section Calls.

Variable IMAGES_DIR : string.
Variable sharp : Sharp.

Lemma convertOne_work basename opts work o w :
  exists cs, calls (snd (convertOne sharp basename opts work o w)) = calls w ++ cs
             /\ Forall (fun c => is_work c = true) cs.
Proof.
  rewrite convertOne_eq.
  destruct (already_there opts o w); [exists []; by rewrite app_nil_r|].
  destruct (dryRun opts); [exists []; by rewrite app_nil_r|].
  destruct (sharp_encode sharp (fn o)); [eexists; split; [done|by repeat constructor]|].
  destruct (sharp_toFile sharp work (fn o) (outFile o) (disk w)).
  all: eexists; split; [done|by repeat constructor].
Qed.

Lemma convertAll_work basename opts work outputs w :
  exists cs, calls (snd (convertAll sharp basename opts work outputs w)) = calls w ++ cs
             /\ Forall (fun c => is_work c = true) cs.
Proof.
  revert w. induction outputs as [|o rest IH]; intros w.
  { exists []. by rewrite app_nil_r. }
  rewrite convertAll_cons.
  destruct (convertOne_work basename opts work o w) as (cs & Hcs & Hwork).
  destruct (convertOne sharp basename opts work o w) as [[e|r] w1]; simpl in *; [eauto|].
  destruct (IH w1) as (cs' & Hcs' & Hwork').
  destruct (convertAll sharp basename opts work rest w1) as [[e|rs] w2]; simpl in *.
  all: exists (cs ++ cs'); rewrite Hcs', Hcs, app_assoc; split; [done|].
  all: by apply Forall_app.
Qed.

(** The calls of one file: the metadata first, the resize if it is due,
    then only clones, encodes and writes. *)
Lemma processImage_calls f opts w :
  exists cs,
    calls (snd (processImage IMAGES_DIR sharp f opts w))
    = calls w ++ CallMetadata (opened f)
        :: match sharp_metadata sharp (opened f) with
           | inr meta => if shouldResize meta opts then [CallResize (bounded opts)] else []
           | inl _ => []
           end ++ cs
    /\ Forall (fun c => is_work c = true) cs.
Proof.
  rewrite processImage_eq. cbv zeta.
  destruct (sharp_metadata sharp (opened f)) as [e|meta]; [by exists []|].
  destruct (shouldResize meta opts);
    [destruct (sharp_resize sharp (bounded opts)); [by exists []|]|].
  all: match goal with
       | |- context [convertAll ?s ?b ?o ?k ?l ?w1] =>
           destruct (convertAll_work b o k l w1) as (cs & -> & Hwork)
       end; exists cs; split; [|done]; simpl; by rewrite <- app_assoc.
Qed.

Lemma filter_metadata_work cs :
  Forall (fun c => is_work c = true) cs -> List.filter is_metadata cs = [].
Proof.
  induction 1 as [|c cs Hc _ IH]; [done|]. simpl. rewrite IH.
  by destruct c.
Qed.

End Calls.

(** X6.  Every file of the listing is opened exactly once, in listing
    order, whether it converts or fails: the metadata calls of the loop of
    [main] are one per file, on the pipeline opened on that file. *)
Theorem one_decode_per_file IMAGES_DIR sharp files opts acc w :
  List.filter is_metadata (calls (snd (processFiles IMAGES_DIR sharp files opts acc w)))
  = List.filter is_metadata (calls w) ++ ((fun f => CallMetadata (opened f)) <$> files).
Proof.
  revert acc w. induction files as [|f rest IH]; intros acc w.
  { simpl. by rewrite app_nil_r. }
  rewrite processFiles_cons.
  destruct (processImage_calls IMAGES_DIR sharp f opts w) as (cs & Hcs & Hwork).
  assert (Hone : List.filter is_metadata
                   (calls (snd (processImage IMAGES_DIR sharp f opts w)))
                 = List.filter is_metadata (calls w) ++ [CallMetadata (opened f)]).
  { rewrite Hcs, List.filter_app. f_equal. cbn [List.filter is_metadata].
    rewrite List.filter_app, (filter_metadata_work cs Hwork), app_nil_r.
    destruct (sharp_metadata sharp (opened f)) as [e|meta]; [done|].
    by destruct (shouldResize meta opts). }
  destruct (processImage IMAGES_DIR sharp f opts w) as [[e|res] w1];
    rewrite IH; simpl in *; rewrite Hone, <- app_assoc; reflexivity.
Qed.

(** ** The directories of a run *)

Section Dirs.

Variable IMAGES_DIR : string.
Variable sharp : Sharp.
Variable host : Host.

Lemma convertOne_dirs basename opts work o w :
  dirs (snd (convertOne sharp basename opts work o w)) = dirs w.
Proof.
  rewrite convertOne_eq.
  destruct (already_there opts o w); [done|]. destruct (dryRun opts); [done|].
  destruct (sharp_encode sharp (fn o)); [done|]. cbv zeta.
  by destruct (sharp_toFile sharp work (fn o) (outFile o) (disk w)).
Qed.

Lemma convertAll_dirs basename opts work outputs w :
  dirs (snd (convertAll sharp basename opts work outputs w)) = dirs w.
Proof.
  revert w. induction outputs as [|o rest IH]; intros w; [done|].
  rewrite convertAll_cons.
  pose proof (convertOne_dirs basename opts work o w) as Hone.
  destruct (convertOne sharp basename opts work o w) as [[e|r] w1]; simpl in *; [done|].
  pose proof (IH w1) as Hrest.
  destruct (convertAll sharp basename opts work rest w1) as [[e|rs] w2]; simpl in *;
    congruence.
Qed.

Lemma processImage_dirs f opts w :
  dirs (snd (processImage IMAGES_DIR sharp f opts w)) = dirs w.
Proof.
  rewrite processImage_eq. cbv zeta.
  destruct (sharp_metadata sharp (opened f)) as [e|meta]; [done|].
  destruct (shouldResize meta opts);
    [destruct (sharp_resize sharp (bounded opts)); [done|]|].
  all: by rewrite convertAll_dirs.
Qed.

Lemma processFiles_dirs files opts acc w :
  dirs (snd (processFiles IMAGES_DIR sharp files opts acc w)) = dirs w.
Proof.
  revert acc w. induction files as [|f rest IH]; intros acc w; [done|].
  rewrite processFiles_cons.
  pose proof (processImage_dirs f opts w) as Hone.
  destruct (processImage IMAGES_DIR sharp f opts w) as [[e|res] w1];
    rewrite IH; exact Hone.
Qed.

(** The output directory is not the path of any output, so making it does
    not change what [fs.access] finds at an output path. *)
Lemma output_not_dir name opts fmts o :
  In o (outputs_for IMAGES_DIR name opts fmts) ->
  outFile o <> Path.join IMAGES_DIR "formatted".
Proof.
  unfold outputs_for. intros (t & <- & _)%in_map_iff Heq.
  apply (f_equal String.length) in Heq. cbn [outFile spec_of] in Heq.
  unfold Path.join in Heq. fold (OUTPUT_DIR IMAGES_DIR) in Heq.
  unfold OUTPUT_DIR, Path.join in Heq. rewrite !append_length in Heq.
  change (String.length OUTPUT_SUBDIR) with 9%nat in Heq.
  cbn [String.length] in Heq. lia.
Qed.

(** [mkdir] is the only call that makes a directory, and it makes the
    output directory. *)
Lemma run_dirs opts w :
  dirs (snd (run IMAGES_DIR sharp host opts w))
  = match host_mkdir host with
    | None => {[ Path.join IMAGES_DIR "formatted" ]} ∪ dirs w
    | Some _ => dirs w
    end.
Proof.
  rewrite run_eq.
  destruct (host_mkdir host); [done|].
  destruct (host_readdir host) as [e|entries]; [done|].
  destruct (collectImageFiles IMAGES_DIR entries) as [|f files]; [done|].
  cbv zeta. cbn [snd]. unfold log_out at 1. cbn [dirs].
  by rewrite processFiles_dirs.
Qed.

Lemma main_dirs argv w :
  dirs (snd (main IMAGES_DIR sharp host argv w))
  = if host_access host then
      match host_mkdir host with
      | None => {[ Path.join IMAGES_DIR "formatted" ]} ∪ dirs w
      | Some _ => dirs w
      end
    else dirs w.
Proof.
  unfold main. pose proof (run_dirs (parseArgs argv) w) as Hrun.
  destruct (host_access host); [|done].
  by destruct (run IMAGES_DIR sharp host (parseArgs argv) w) as [[e|rs] w'].
Qed.

End Dirs.

(** ** Dry runs *)

Lemma processImage_dry_world IMAGES_DIR sharp f opts w :
  dryRun opts = true ->
  let w' := snd (processImage IMAGES_DIR sharp f opts w) in
  disk w' = disk w /\ List.filter is_work (calls w') = List.filter is_work (calls w).
Proof.
  intros Hdry. rewrite processImage_eq. cbv zeta.
  destruct (sharp_metadata sharp (opened f)) as [e|meta].
  { simpl. by rewrite List.filter_app, app_nil_r. }
  destruct (shouldResize meta opts);
    [destruct (sharp_resize sharp (bounded opts));
     [simpl; by rewrite List.filter_app, app_nil_r|]|].
  all: match goal with
       | |- context [convertAll ?s ?b ?o ?k ?l ?w1] =>
           destruct (convertAll_dry s b o k l w1 Hdry) as (rs & -> & _)
       end; simpl; by rewrite List.filter_app, app_nil_r.
Qed.

Lemma processFiles_dry_world IMAGES_DIR sharp files opts acc w :
  dryRun opts = true ->
  let w' := snd (processFiles IMAGES_DIR sharp files opts acc w) in
  disk w' = disk w /\ List.filter is_work (calls w') = List.filter is_work (calls w).
Proof.
  intros Hdry. revert acc w. induction files as [|f rest IH]; intros acc w; [done|].
  rewrite processFiles_cons.
  destruct (processImage_dry_world IMAGES_DIR sharp f opts w Hdry) as [Hd Hc].
  destruct (processImage IMAGES_DIR sharp f opts w) as [[e|res] w1]; simpl in *.
  - destruct (IH acc (log_err [error_line f e] w1)) as [Hd' Hc'].
    split; [by rewrite Hd'|by rewrite Hc'].
  - destruct (IH (acc ++ res) w1) as [Hd' Hc'].
    split; [by rewrite Hd'|by rewrite Hc'].
Qed.

(** X7.  With [--dry-run] among the arguments the whole process writes no
    file: however it ends, the output files are exactly those that were
    there, and the codec is never asked to clone, encode or write (it is
    still asked for the metadata of every file).  The one thing a dry run
    does to the file system is make the output directory: [mkdir] runs
    before the flag is looked at, whenever the images directory is there. *)
Theorem dry_run_writes_nothing IMAGES_DIR sharp host argv w :
  In "--dry-run" (drop 2 argv) ->
  let w' := snd (main IMAGES_DIR sharp host argv w) in
  disk w' = disk w /\ List.filter is_work (calls w') = List.filter is_work (calls w)
  /\ dirs w'
     = if host_access host then
         match host_mkdir host with
         | None => {[ Path.join IMAGES_DIR "formatted" ]} ∪ dirs w
         | Some _ => dirs w
         end
       else dirs w.
Proof.
  intros Hflag. cbv zeta. rewrite main_dirs.
  cut (disk (snd (main IMAGES_DIR sharp host argv w)) = disk w
       /\ List.filter is_work (calls (snd (main IMAGES_DIR sharp host argv w)))
          = List.filter is_work (calls w)).
  { intros [Hd Hc]. by repeat split. }
  assert (Hdry : dryRun (parseArgs argv) = true).
  { unfold parseArgs.
    rewrite (fold_flag dryRun "--dry-run" parseArg_dryRun). simpl.
    apply existsb_exists. eexists. split; [exact Hflag|]. apply String.eqb_refl. }
  unfold main. rewrite run_eq.
  destruct (host_access host); [|done].
  destruct (host_mkdir host); [done|].
  destruct (host_readdir host) as [e|entries]; [done|].
  destruct (collectImageFiles IMAGES_DIR entries) as [|f files]; [done|].
  cbv zeta. cbn [fst snd].
  match goal with
  | |- context [processFiles ?d ?s ?fs ?o ?a ?w1] =>
      destruct (processFiles_dry_world d s fs o a w1 Hdry) as [Hd Hc]
  end.
  unfold log_out in *. cbn [disk calls] in *. by rewrite Hd, Hc.
Qed.

(** The sample run, dry, over an output directory that holds one file. *)
Lemma dry_run_writes_nothing_witness :
  let w' := snd (main Sample.dir Sample.codec Sample.host
                   ["node"; "index.mjs"; "--dry-run"] Sample.with_a_webp) in
  disk w' = {[ "/app/images/formatted/a.webp" := Foreign 7 ]}
  /\ "/app/images/formatted" ∈ dirs w'.
Proof.
  destruct (dry_run_writes_nothing Sample.dir Sample.codec Sample.host
              ["node"; "index.mjs"; "--dry-run"] Sample.with_a_webp)
    as (Hd & _ & Hdirs); [simpl; auto|].
  split; [exact Hd|]. rewrite Hdirs. apply elem_of_union_l, elem_of_singleton_2.
  reflexivity.
Defined.

(** ** Where files are written *)

Lemma outputs_under IMAGES_DIR name opts fmts :
  Forall (fun o => under_output_dir IMAGES_DIR (outFile o) = true)
    (outputs_for IMAGES_DIR name opts fmts).
Proof.
  unfold outputs_for. apply List.Forall_forall. intros o (t & <- & _)%in_map_iff.
  unfold under_output_dir, spec_of, Path.join. cbn [outFile].
  rewrite <- string_app_assoc. apply startsWith_app.
Qed.

Section Confined.

Variable IMAGES_DIR : string.
Variable sharp : Sharp.

Lemma convertOne_elsewhere basename opts work o w p :
  p <> outFile o ->
  disk (snd (convertOne sharp basename opts work o w)) !! p = disk w !! p.
Proof.
  intros Hp. rewrite convertOne_eq.
  destruct (already_there opts o w); [done|].
  destruct (dryRun opts); [done|].
  destruct (sharp_encode sharp (fn o)); [done|].
  destruct (sharp_toFile sharp work (fn o) (outFile o) (disk w)); [done|].
  simpl. by rewrite lookup_insert_ne.
Qed.

Lemma convertAll_elsewhere basename opts work outputs w p :
  Forall (fun o => outFile o <> p) outputs ->
  disk (snd (convertAll sharp basename opts work outputs w)) !! p = disk w !! p.
Proof.
  intros Hall. revert w. induction Hall as [|o rest Ho _ IH]; intros w; [done|].
  rewrite convertAll_cons.
  pose proof (convertOne_elsewhere basename opts work o w p (not_eq_sym Ho)) as H1.
  destruct (convertOne sharp basename opts work o w) as [[e|r] w1]; simpl in *; [done|].
  pose proof (IH w1) as H2.
  destruct (convertAll sharp basename opts work rest w1) as [[e|rs] w2]; simpl in *.
  all: by rewrite H2.
Qed.

Lemma processImage_elsewhere f opts w p :
  under_output_dir IMAGES_DIR p = false ->
  disk (snd (processImage IMAGES_DIR sharp f opts w)) !! p = disk w !! p.
Proof.
  intros Hp. rewrite processImage_eq. cbv zeta.
  assert (Hout : Forall (fun o => outFile o <> p)
                   (outputs_for IMAGES_DIR (nameNoExt f) opts (formats opts))).
  { eapply Forall_impl; [apply outputs_under|].
    intros o Ho Heq. simpl in Ho. rewrite Heq in Ho. congruence. }
  destruct (sharp_metadata sharp (opened f)) as [e|meta]; [done|].
  destruct (shouldResize meta opts);
    [destruct (sharp_resize sharp (bounded opts)); [done|]|].
  all: by rewrite convertAll_elsewhere.
Qed.

Lemma processFiles_elsewhere files opts acc w p :
  under_output_dir IMAGES_DIR p = false ->
  disk (snd (processFiles IMAGES_DIR sharp files opts acc w)) !! p = disk w !! p.
Proof.
  intros Hp. revert acc w. induction files as [|f rest IH]; intros acc w; [done|].
  rewrite processFiles_cons.
  pose proof (processImage_elsewhere f opts w p Hp) as H1.
  destruct (processImage IMAGES_DIR sharp f opts w) as [[e|res] w1]; simpl in H1;
    rewrite IH; exact H1.
Qed.

End Confined.

(** X8.  Whatever the options, the codec and the listing, the process
    touches the file system only at the output directory and below it: the
    only directory it makes is [images/formatted], and every file path that
    is not below that directory holds what it held, so no source is ever
    written over. *)
Theorem writes_only_under_output_dir IMAGES_DIR sharp host argv w :
  let w' := snd (main IMAGES_DIR sharp host argv w) in
  (forall p,
      Js.startsWith p (Path.join IMAGES_DIR "formatted" +:+ "/") = false ->
      disk w' !! p = disk w !! p)
  /\ (forall d, d ∈ dirs w' -> d ∈ dirs w \/ d = Path.join IMAGES_DIR "formatted").
Proof.
  cbv zeta. split.
  - intros p Hp. unfold main. rewrite run_eq.
    destruct (host_access host); [|done].
    destruct (host_mkdir host); [done|].
    destruct (host_readdir host) as [e|entries]; [done|].
    destruct (collectImageFiles IMAGES_DIR entries) as [|f files]; [done|].
    cbv zeta. cbn [fst snd]. unfold log_out at 1. cbn [disk].
    by rewrite processFiles_elsewhere.
  - intros d. rewrite main_dirs.
    destruct (host_access host); [|by left].
    destruct (host_mkdir host); [by left|].
    intros [->%elem_of_singleton|Hd]%elem_of_union; [by right|by left].
Qed.

(** The source [a.png], had it been on the modelled disk, stays as it was. *)
Lemma writes_only_under_output_dir_witness :
  disk (snd (main Sample.dir Sample.codec Sample.host
               ["node"; "index.mjs"; "--overwrite"]
               (mkWorld {[ "/app/images/a.png" := Foreign 1 ]} [] [] [] ∅)))
  !! "/app/images/a.png" = Some (Foreign 1).
Proof.
  rewrite (proj1 (writes_only_under_output_dir Sample.dir Sample.codec Sample.host
                    ["node"; "index.mjs"; "--overwrite"]
                    (mkWorld {[ "/app/images/a.png" := Foreign 1 ]} [] [] [] ∅))
             "/app/images/a.png" eq_refl).
  reflexivity.
Defined.

(** ** What a written result costs *)

Lemma count_written_cons r rs :
  count_status written (r :: rs)
  = ((match status r with written => 1 | _ => 0 end) + count_status written rs)%nat.
Proof.
  unfold count_status. cbn [List.filter]. destruct (status r); cbn [status_text].
  all: first [ rewrite bool_decide_eq_true_2 by done
             | rewrite bool_decide_eq_false_2 by done ]; reflexivity.
Qed.

Lemma convertAll_counts sharp basename opts work outputs w rs w' :
  convertAll sharp basename opts work outputs w = (Return rs, w') ->
  forall kind, kind = is_clone \/ kind = is_encode \/ kind = is_toFile ->
    length (List.filter kind (calls w'))
    = (length (List.filter kind (calls w)) + count_status written rs)%nat.
Proof.
  revert w rs w'. induction outputs as [|o rest IH]; intros w rs w'.
  { simpl. unfold ret. intros [= <- <-] kind _. unfold count_status. simpl. lia. }
  intros (r & w1 & rs1 & Hone & Hrest & ->)%convertAll_return kind Hkind.
  rewrite (IH _ _ _ Hrest kind Hkind), count_written_cons.
  apply convertOne_return in Hone
    as [(_ & -> & ->)|[(_ & _ & -> & ->)|(_ & _ & -> & ->)]]; simpl; try lia.
  rewrite List.filter_app, length_app.
  destruct Hkind as [-> | [-> | ->]]; simpl; lia.
Qed.

(** X9.  When [processImage] returns, each result with status written has
    cost exactly one clone of the working handle, one encoder call and one
    write, and the skipped and dry-run results have cost none: the numbers
    of clone, encode and toFile calls made for the file all equal the
    number of written results. *)
Theorem written_costs_one_of_each IMAGES_DIR sharp f opts w rs w' :
  processImage IMAGES_DIR sharp f opts w = (Return rs, w') ->
  let made kind := (length (List.filter kind (calls w'))
                    - length (List.filter kind (calls w)))%nat in
  made is_clone = count_status written rs
  /\ made is_encode = count_status written rs
  /\ made is_toFile = count_status written rs.
Proof.
  rewrite processImage_eq. cbv zeta.
  destruct (sharp_metadata sharp (opened f)) as [e|meta]; [discriminate|].
  assert (Hfan : forall work w1,
             (forall kind, kind = is_clone \/ kind = is_encode \/ kind = is_toFile ->
                           List.filter kind (calls w1) = List.filter kind (calls w)) ->
             convertAll sharp (Path.basename f) opts work
               (outputs_for IMAGES_DIR (nameNoExt f) opts (formats opts))
               (log_err (warnings_for (formats opts)) w1) = (Return rs, w') ->
             forall kind, kind = is_clone \/ kind = is_encode \/ kind = is_toFile ->
               (length (List.filter kind (calls w'))
                - length (List.filter kind (calls w)))%nat = count_status written rs).
  { intros work w1 Hsame Hall kind Hkind.
    rewrite (convertAll_counts _ _ _ _ _ _ _ _ Hall kind Hkind). simpl.
    rewrite (Hsame kind Hkind). lia. }
  intros Hrun.
  assert (Hall : forall kind, kind = is_clone \/ kind = is_encode \/ kind = is_toFile ->
             (length (List.filter kind (calls w'))
              - length (List.filter kind (calls w)))%nat = count_status written rs).
  { destruct (shouldResize meta opts);
      [destruct (sharp_resize sharp (bounded opts)); [discriminate|]|];
      (eapply Hfan; [|exact Hrun]);
      intros kind [-> | [-> | ->]]; simpl; by rewrite List.filter_app, app_nil_r. }
  repeat split; apply Hall; auto.
Qed.

(** The picture 2000 wide with the defaults: two written results. *)
Lemma written_costs_one_of_each_witness :
  (length (List.filter is_toFile
             (calls (snd (processImage Sample.dir Sample.codec "/app/images/b.jpg"
                            defaults Sample.empty))))
   - length (List.filter is_toFile (calls Sample.empty)))%nat = 2%nat.
Proof.
  pose proof (written_costs_one_of_each Sample.dir Sample.codec "/app/images/b.jpg"
                defaults Sample.empty _ _ eq_refl) as (_ & _ & H).
  exact H.
Defined.

(** ** Overwriting *)

(** X10.  With overwrite on nothing is ever skipped: every result of a file
    is dry-run in a dry run and written otherwise, whatever the output
    directory holds; and a step that writes leaves at the output path the
    picture it has just encoded, whatever was there. *)
Theorem overwrite_never_skips IMAGES_DIR sharp opts :
  overwrite opts = true ->
  (forall f w rs w',
      processImage IMAGES_DIR sharp f opts w = (Return rs, w') ->
      Forall (fun r => status r = if dryRun opts then dry_run else written) rs)
  /\ (forall basename work o w r w1,
         dryRun opts = false ->
         convertOne sharp basename opts work o w = (Return r, w1) ->
         disk w1 !! outFile o = Some (Encoded work (fn o))).
Proof.
  intros Hover. split.
  - intros f w rs w'. rewrite processImage_eq. cbv zeta.
    destruct (sharp_metadata sharp (opened f)) as [e|meta]; [discriminate|].
    assert (Hfan : forall work outputs w1 rs1 w2,
               convertAll sharp (Path.basename f) opts work outputs w1 = (Return rs1, w2) ->
               Forall (fun r => status r = if dryRun opts then dry_run else written) rs1).
    { intros work outputs. induction outputs as [|o rest IH]; intros w1 rs1 w2.
      { simpl. unfold ret. intros [= <- <-]. constructor. }
      intros (r & w3 & rs2 & Hone & Hrest & ->)%convertAll_return.
      constructor; [|by eapply IH].
      apply convertOne_return in Hone
        as [(Ht & _)|[(_ & -> & -> & _)|(_ & -> & -> & _)]]; [|done|done].
      apply already_there_true in Ht as [Ht _]. congruence. }
    destruct (shouldResize meta opts);
      [destruct (sharp_resize sharp (bounded opts)); [discriminate|]|];
      apply Hfan.
  - intros basename work o w r w1 Hdry Hone.
    apply convertOne_return in Hone
      as [(Ht & _)|[(_ & ? & _)|(_ & _ & _ & ->)]]; [|congruence|].
    + apply already_there_true in Ht as [Ht _]. congruence.
    + simpl. apply lookup_insert_eq.
Qed.

(** [a.webp] exists and is replaced. *)
Lemma overwrite_never_skips_witness :
  disk (snd (convertOne Sample.codec "a.png" (set_overwrite true defaults) Sample.a_png
               Sample.a_webp Sample.with_a_webp))
  !! "/app/images/formatted/a.webp"
  = Some (Encoded Sample.a_png (Webp (Js.of_Z 80) 4)).
Proof.
  destruct (overwrite_never_skips Sample.dir Sample.codec (set_overwrite true defaults)
              eq_refl) as [_ H].
  apply (H "a.png" Sample.a_png Sample.a_webp Sample.with_a_webp
           (mkResult "a.png" "a.webp" "webp" written) _ eq_refl).
  reflexivity.
Defined.

(** ** What the results say *)

Lemma split_pieces sep s :
  Forall (fun x => Js.includes x sep = false) (Js.split sep s).
Proof.
  induction s as [|c r IH]; simpl; [by repeat constructor|].
  destruct (Ascii.eqb c sep) eqn:Hc; [by constructor|].
  destruct (Js.split sep r) as [|h t]; [by repeat constructor; simpl; rewrite Hc|].
  inversion IH; subst. constructor; [|done]. simpl. by rewrite Hc.
Qed.

Lemma last_nonempty_keeps (P : string -> Prop) l :
  P "" -> Forall P l -> P (Path.last_nonempty l).
Proof.
  intros Hempty. induction 1 as [|x l Hx _ IH]; simpl; [done|].
  destruct (Path.last_nonempty l); [done|exact IH].
Qed.

Lemma basename_no_sep p : Js.includes (Path.basename p) "/" = false.
Proof.
  unfold Path.basename. apply last_nonempty_keeps; [done|]. apply split_pieces.
Qed.

Lemma substring_no_char c s n m :
  Js.includes s c = false -> Js.includes (String.substring n m s) c = false.
Proof.
  revert n m. induction s as [|d r IH]; intros n m Hs.
  { by destruct n, m. }
  simpl in Hs. apply orb_false_elim in Hs as [Hd Hr].
  destruct n as [|n]; [destruct m as [|m]|]; simpl; [done| |by apply IH].
  by rewrite Hd, IH.
Qed.

Lemma nameNoExt_no_sep f : Js.includes (nameNoExt f) "/" = false.
Proof.
  unfold nameNoExt, Path.basename_ext.
  destruct (_ && _); [apply substring_no_char|]; apply basename_no_sep.
Qed.

Lemma extension_of_plain t :
  extension_of t <> "" /\ Js.includes (extension_of t) "/" = false.
Proof.
  unfold extension_of.
  destruct (String.eqb t "webp"); [done|]. by destruct (String.eqb t "png").
Qed.

(** The output of a token is named after the source and the format, and
    that name is the last component of its path. *)
Lemma spec_of_name IMAGES_DIR f opts t :
  Path.basename (outFile (spec_of IMAGES_DIR (nameNoExt f) opts t))
  = nameNoExt f +:+ extension_of t
  /\ Path.join (OUTPUT_DIR IMAGES_DIR) (nameNoExt f +:+ extension_of t)
     = outFile (spec_of IMAGES_DIR (nameNoExt f) opts t).
Proof.
  split; [|done]. cbn [spec_of outFile].
  destruct (extension_of_plain t) as [Hne Hsep].
  apply basename_join.
  - destruct (nameNoExt f); [exact Hne|done].
  - by rewrite includes_app, nameNoExt_no_sep, Hsep.
Qed.

Lemma processImage_results IMAGES_DIR sharp f opts w rs w' :
  processImage IMAGES_DIR sharp f opts w = (Return rs, w') ->
  exists work w1,
    convertAll sharp (Path.basename f) opts work
      (outputs_for IMAGES_DIR (nameNoExt f) opts (formats opts)) w1 = (Return rs, w')
    /\ disk w1 = disk w.
Proof.
  rewrite processImage_eq. cbv zeta.
  destruct (sharp_metadata sharp (opened f)) as [e|meta]; [discriminate|].
  destruct (shouldResize meta opts);
    [destruct (sharp_resize sharp (bounded opts)); [discriminate|]|].
  all: intros Hall; eexists _, _; split; [exact Hall|done].
Qed.

(** X11.  The results of a file name it and its outputs without any
    directory: [src] is the file name of the source, [out] is that name
    without its extension followed by the extension of the format ([.webp],
    [.jpg], [.png]), [format] is the token with [jpg] turned into [jpeg];
    one result per valid token, in request order. *)
Theorem results_name_files IMAGES_DIR sharp f opts w rs w' :
  processImage IMAGES_DIR sharp f opts w = (Return rs, w') ->
  (fun r => (src r, out r, format r)) <$> rs
  = (fun t => (Path.basename f, nameNoExt f +:+ extension_of t, normalized t))
    <$> List.filter valid_token (formats opts)
  /\ Forall (fun r => Js.includes (src r) "/" = false
                      /\ Js.includes (out r) "/" = false) rs.
Proof.
  intros (work & w1 & Hall & _)%processImage_results.
  apply convertAll_results in Hall.
  assert (Hshape : (fun r => (src r, out r, format r)) <$> rs
                   = (fun t => (Path.basename f, nameNoExt f +:+ extension_of t,
                                normalized t))
                     <$> List.filter valid_token (formats opts)).
  { transitivity ((fun r => (src r, out r, format r)) <$> (rerun <$> rs)).
    { rewrite <- list_fmap_compose. apply list_fmap_ext. by intros i []. }
    rewrite Hall. unfold outputs_for.
    change (map (spec_of IMAGES_DIR (nameNoExt f) opts))
      with (fmap (M:=list) (spec_of IMAGES_DIR (nameNoExt f) opts)).
    rewrite <- !list_fmap_compose. apply list_fmap_ext. intros i t _.
    unfold compose, result_of. cbn [src out format].
    by rewrite (proj1 (spec_of_name IMAGES_DIR f opts t)). }
  split; [exact Hshape|].
  apply Forall_forall. intros r Hr.
  apply (list_elem_of_fmap_2 (fun r => (src r, out r, format r))) in Hr.
  rewrite Hshape in Hr. apply list_elem_of_fmap in Hr as (t & [= -> -> _] & _).
  split; [apply basename_no_sep|].
  by rewrite includes_app, nameNoExt_no_sep, (proj2 (extension_of_plain t)).
Qed.

(** A picture whose name has two dots, three tokens. *)
Lemma results_name_files_witness :
  (fun r => (src r, out r, format r))
  <$> returned (processImage Sample.dir Sample.codec "/app/images/my.photo.JPG"
                  (set_formats ["jpg"; "bmp"; "webp"] defaults) Sample.empty)
  = [("my.photo.JPG", "my.photo.jpg", "jpeg"); ("my.photo.JPG", "my.photo.webp", "webp")].
Proof.
  apply (results_name_files Sample.dir Sample.codec "/app/images/my.photo.JPG"
           (set_formats ["jpg"; "bmp"; "webp"] defaults) Sample.empty _
           (snd (processImage Sample.dir Sample.codec "/app/images/my.photo.JPG"
                   (set_formats ["jpg"; "bmp"; "webp"] defaults) Sample.empty))).
  reflexivity.
Defined.

Section Kept.

Variable IMAGES_DIR : string.
Variable sharp : Sharp.

(** No step removes a path, overwrite or not. *)
Lemma convertOne_keeps basename opts work o w p :
  is_Some (disk w !! p) ->
  is_Some (disk (snd (convertOne sharp basename opts work o w)) !! p).
Proof.
  intros Hp. rewrite convertOne_eq.
  destruct (already_there opts o w); [done|].
  destruct (dryRun opts); [done|].
  destruct (sharp_encode sharp (fn o)); [done|].
  destruct (sharp_toFile sharp work (fn o) (outFile o) (disk w)); [done|].
  simpl. rewrite lookup_insert_is_Some.
  destruct (decide (outFile o = p)); auto.
Qed.

Lemma convertAll_keeps basename opts work outputs w p :
  is_Some (disk w !! p) ->
  is_Some (disk (snd (convertAll sharp basename opts work outputs w)) !! p).
Proof.
  revert w. induction outputs as [|o rest IH]; intros w Hp; [done|].
  rewrite convertAll_cons.
  pose proof (convertOne_keeps basename opts work o w p Hp) as H1.
  destruct (convertOne sharp basename opts work o w) as [[e|r] w1]; simpl in *; [done|].
  pose proof (IH w1 H1) as H2.
  by destruct (convertAll sharp basename opts work rest w1) as [[e|rs] w2].
Qed.

Lemma processImage_keeps f opts w p :
  is_Some (disk w !! p) ->
  is_Some (disk (snd (processImage IMAGES_DIR sharp f opts w)) !! p).
Proof.
  intros Hp. rewrite processImage_eq. cbv zeta.
  destruct (sharp_metadata sharp (opened f)) as [e|meta]; [done|].
  destruct (shouldResize meta opts);
    [destruct (sharp_resize sharp (bounded opts)); [done|]|].
  all: by apply convertAll_keeps.
Qed.

Lemma processFiles_keeps files opts acc w p :
  is_Some (disk w !! p) ->
  is_Some (disk (snd (processFiles IMAGES_DIR sharp files opts acc w)) !! p).
Proof.
  revert acc w. induction files as [|f rest IH]; intros acc w Hp; [done|].
  rewrite processFiles_cons.
  pose proof (processImage_keeps f opts w p Hp) as H1.
  destruct (processImage IMAGES_DIR sharp f opts w) as [[e|res] w1]; simpl in H1;
    by apply IH.
Qed.

(** Each result that is not dry-run names an output that is on disk when
    the loop is through. *)
Lemma convertAll_on_disk basename opts work outputs w rs w' :
  convertAll sharp basename opts work outputs w = (Return rs, w') ->
  Forall (fun r => status r <> dry_run ->
                   exists o, o ∈ outputs /\ out r = Path.basename (outFile o)
                             /\ is_Some (disk w' !! outFile o)) rs.
Proof.
  revert w rs w'. induction outputs as [|o rest IH]; intros w rs w'.
  { simpl. unfold ret. intros [= <- <-]. constructor. }
  intros (r & w1 & rs1 & Hone & Hrest & ->)%convertAll_return.
  constructor.
  - intros Hnot. exists o. split; [by left|].
    assert (is_Some (disk w1 !! outFile o) /\ out r = Path.basename (outFile o))
      as [Hthere Hout].
    { apply convertOne_return in Hone
        as [(Ht & -> & ->)|[(_ & _ & -> & _)|(_ & _ & -> & ->)]]; [|done|].
      - by apply already_there_true in Ht as [_ ?].
      - simpl. by rewrite lookup_insert_eq. }
    split; [exact Hout|].
    pose proof (convertAll_keeps basename opts work rest w1 _ Hthere) as Hk.
    by rewrite Hrest in Hk.
  - eapply Forall_impl; [by eapply IH|].
    intros r' Hr' Hnot. destruct (Hr' Hnot) as (o' & Ho' & Hrest').
    exists o'. split; [by right|done].
Qed.

Lemma processImage_backed f opts w rs w' :
  processImage IMAGES_DIR sharp f opts w = (Return rs, w') ->
  Forall (backed IMAGES_DIR w') rs.
Proof.
  intros (work & w1 & Hall & _)%processImage_results.
  eapply Forall_impl; [by eapply convertAll_on_disk|].
  intros r Hr Hnot. destruct (Hr Hnot) as (o & Ho & Hout & Hthere).
  unfold outputs_for in Ho. apply list_elem_of_fmap in Ho as (t & -> & _).
  rewrite Hout, (proj1 (spec_of_name IMAGES_DIR f opts t)).
  by rewrite (proj2 (spec_of_name IMAGES_DIR f opts t)).
Qed.

Lemma processFiles_backed files opts acc w :
  Forall (backed IMAGES_DIR w) acc ->
  Forall (backed IMAGES_DIR (snd (processFiles IMAGES_DIR sharp files opts acc w)))
    (returned (processFiles IMAGES_DIR sharp files opts acc w)).
Proof.
  revert acc w. induction files as [|f rest IH]; intros acc w Hacc; [done|].
  rewrite processFiles_cons.
  assert (Hlater : forall w1, (forall p, is_Some (disk w !! p) -> is_Some (disk w1 !! p)) ->
                              Forall (backed IMAGES_DIR w1) acc).
  { intros w1 Hk. eapply Forall_impl; [exact Hacc|].
    intros r Hr Hnot. apply Hk, Hr, Hnot. }
  pose proof (fun p => processImage_keeps f opts w p) as Hk.
  destruct (processImage IMAGES_DIR sharp f opts w) as [[e|res] w1] eqn:Hone;
    simpl in Hk; apply IH.
  - by apply (Hlater (log_err [error_line f e] w1)).
  - apply Forall_app. split; [by apply Hlater|by eapply processImage_backed].
Qed.

End Kept.

(** X12.  Every result of a run that says written or skipped-exists names
    a file that is in the output directory when the run is over: the path
    made of the output directory and the [out] of the result exists. *)
Theorem reported_files_exist IMAGES_DIR sharp host opts w r :
  r ∈ returned (run IMAGES_DIR sharp host opts w) ->
  status r <> dry_run ->
  is_Some (disk (snd (run IMAGES_DIR sharp host opts w))
           !! Path.join (Path.join IMAGES_DIR "formatted") (out r)).
Proof.
  rewrite run_eq.
  destruct (host_mkdir host); [by intros ?%elem_of_nil|].
  destruct (host_readdir host) as [e|entries]; [by intros ?%elem_of_nil|].
  destruct (collectImageFiles IMAGES_DIR entries) as [|f files];
    [by intros ?%elem_of_nil|].
  cbv zeta. unfold returned at 1. cbn [fst snd]. fold (@returned ConversionResult).
  intros Hr Hnot.
  pose proof (processFiles_backed IMAGES_DIR sharp (f :: files) opts []
                (log_out (banner IMAGES_DIR opts (f :: files))
                   (made (OUTPUT_DIR IMAGES_DIR) w)) (Forall_nil_2 _)) as Hall.
  rewrite Forall_forall in Hall. exact (Hall r Hr Hnot).
Qed.

(** The sample run: [a.jpg] was written. *)
Lemma reported_files_exist_witness :
  is_Some (disk (snd (run Sample.dir Sample.codec Sample.host defaults Sample.with_a_webp))
           !! "/app/images/formatted/a.jpg").
Proof.
  apply (reported_files_exist Sample.dir Sample.codec Sample.host defaults
           Sample.with_a_webp (mkResult "a.png" "a.jpg" "jpeg" written)).
  - apply list_elem_of_In. vm_compute. auto.
  - done.
Defined.

(** ** Files that get to the fan-out and files that do not *)

Section Reach.

Variable IMAGES_DIR : string.
Variable sharp : Sharp.

Lemma processImage_reaches f opts w :
  reaches_fan_out sharp opts f = true ->
  exists work w1,
    processImage IMAGES_DIR sharp f opts w
    = convertAll sharp (Path.basename f) opts work
        (outputs_for IMAGES_DIR (nameNoExt f) opts (formats opts)) w1
    /\ disk w1 = disk w
    /\ stderr w1 = stderr w ++ warnings_for (formats opts)
    /\ List.filter is_work (calls w1) = List.filter is_work (calls w).
Proof.
  unfold reaches_fan_out. rewrite processImage_eq. cbv zeta.
  destruct (sharp_metadata sharp (opened f)) as [e|meta]; [discriminate|].
  destruct (shouldResize meta opts);
    [destruct (sharp_resize sharp (bounded opts)); [discriminate|]|].
  all: intros _; eexists _, _; split; [reflexivity|]; simpl.
  all: by rewrite List.filter_app, app_nil_r.
Qed.

Lemma processImage_stops f opts w :
  reaches_fan_out sharp opts f = false ->
  exists e w1,
    processImage IMAGES_DIR sharp f opts w = (Throw e, w1)
    /\ disk w1 = disk w /\ stderr w1 = stderr w
    /\ List.filter is_work (calls w1) = List.filter is_work (calls w).
Proof.
  unfold reaches_fan_out. rewrite processImage_eq. cbv zeta.
  destruct (sharp_metadata sharp (opened f)) as [e|meta].
  { intros _. eexists _, _. split; [reflexivity|]. simpl.
    by rewrite List.filter_app, app_nil_r. }
  destruct (shouldResize meta opts); [|discriminate].
  destruct (sharp_resize sharp (bounded opts)); [|discriminate].
  intros _. eexists _, _. split; [reflexivity|]. simpl.
  by rewrite List.filter_app, app_nil_r.
Qed.

End Reach.

(** X13.  A file warns about the unsupported format tokens exactly when it
    gets past decoding and resizing: then stderr gains one warning per such
    token, in request order, even if an encoder or a write throws later;
    a file whose metadata cannot be read or whose resize is rejected adds
    nothing to stderr by itself. *)
Theorem warnings_per_file IMAGES_DIR sharp f opts w :
  stderr (snd (processImage IMAGES_DIR sharp f opts w))
  = stderr w ++ (if reaches_fan_out sharp opts f
                 then (fun t => "Skipping unsupported output format: " +:+ t)
                      <$> List.filter (fun t => negb (valid_token t)) (formats opts)
                 else []).
Proof.
  destruct (reaches_fan_out sharp opts f) eqn:Hreach.
  - destruct (processImage_reaches IMAGES_DIR sharp f opts w Hreach)
      as (work & w1 & -> & _ & Herr & _).
    destruct (convertAll_frame sharp (Path.basename f) opts work
                (outputs_for IMAGES_DIR (nameNoExt f) opts (formats opts)) w1)
      as (_ & -> & _).
    rewrite Herr. reflexivity.
  - destruct (processImage_stops IMAGES_DIR sharp f opts w Hreach)
      as (e & w1 & -> & _ & Herr & _).
    simpl. by rewrite Herr, app_nil_r.
Qed.

Section NoToken.

Variable IMAGES_DIR : string.
Variable sharp : Sharp.

Lemma processFiles_no_token files opts acc w :
  List.filter valid_token (formats opts) = [] ->
  let r := processFiles IMAGES_DIR sharp files opts acc w in
  returned r = acc /\ disk (snd r) = disk w
  /\ List.filter is_work (calls (snd r)) = List.filter is_work (calls w).
Proof.
  intros Hnone. revert acc w. induction files as [|f rest IH]; intros acc w; [done|].
  cbv zeta. rewrite processFiles_cons.
  destruct (reaches_fan_out sharp opts f) eqn:Hreach.
  - destruct (processImage_reaches IMAGES_DIR sharp f opts w Hreach)
      as (work & w1 & -> & Hd & _ & Hc).
    unfold outputs_for. rewrite Hnone. simpl. unfold ret.
    destruct (IH (acc ++ []) w1) as (Hr & Hd' & Hc').
    rewrite Hr, Hd', Hc', Hd, Hc. by rewrite app_nil_r.
  - destruct (processImage_stops IMAGES_DIR sharp f opts w Hreach)
      as (e & w1 & -> & Hd & _ & Hc).
    destruct (IH acc (log_err [error_line f e] w1)) as (Hr & Hd' & Hc').
    rewrite Hr, Hd', Hc'. simpl. by rewrite Hd, Hc.
Qed.

End NoToken.

(** X14.  When the format list holds no valid token (it is empty, as after
    [--formats=,], or all its tokens are unknown) the run converts nothing:
    it returns no result, writes no file and never asks the codec to
    clone, encode or write, though every picture is still opened.  All it
    leaves behind is the output directory, made before anything else. *)
Theorem no_valid_format_no_output IMAGES_DIR sharp host opts w :
  List.filter valid_token (formats opts) = [] ->
  let r := run IMAGES_DIR sharp host opts w in
  returned r = [] /\ disk (snd r) = disk w
  /\ List.filter is_work (calls (snd r)) = List.filter is_work (calls w)
  /\ dirs (snd r)
     = match host_mkdir host with
       | None => {[ Path.join IMAGES_DIR "formatted" ]} ∪ dirs w
       | Some _ => dirs w
       end.
Proof.
  intros Hnone. cbv zeta. rewrite run_dirs.
  cut (returned (run IMAGES_DIR sharp host opts w) = []
       /\ disk (snd (run IMAGES_DIR sharp host opts w)) = disk w
       /\ List.filter is_work (calls (snd (run IMAGES_DIR sharp host opts w)))
          = List.filter is_work (calls w)).
  { intros (Hr & Hd & Hc). by repeat split. }
  rewrite run_eq.
  destruct (host_mkdir host); [done|].
  destruct (host_readdir host) as [e|entries]; [done|].
  destruct (collectImageFiles IMAGES_DIR entries) as [|f files]; [done|].
  cbv zeta.
  destruct (processFiles_no_token IMAGES_DIR sharp (f :: files) opts []
              (log_out (banner IMAGES_DIR opts (f :: files))
                 (made (OUTPUT_DIR IMAGES_DIR) w)) Hnone) as (Hr & Hd & Hc).
  unfold returned at 1. cbn [fst snd]. fold (@returned ConversionResult).
  unfold log_out in *. cbn [disk calls] in *. by rewrite Hr, Hd, Hc.
Qed.

(** The sample run after [--formats=,]. *)
Lemma no_valid_format_no_output_witness :
  returned (run Sample.dir Sample.codec Sample.host
              (parseArgs ["node"; "index.mjs"; "--formats=,"]) Sample.empty) = []
  /\ disk (snd (run Sample.dir Sample.codec Sample.host
                  (parseArgs ["node"; "index.mjs"; "--formats=,"]) Sample.empty)) = ∅
  /\ "/app/images/formatted"
     ∈ dirs (snd (run Sample.dir Sample.codec Sample.host
                    (parseArgs ["node"; "index.mjs"; "--formats=,"]) Sample.empty)).
Proof.
  destruct (no_valid_format_no_output Sample.dir Sample.codec Sample.host
              (parseArgs ["node"; "index.mjs"; "--formats=,"]) Sample.empty eq_refl)
    as (Hr & Hd & _ & Hdirs).
  split; [exact Hr|]. split; [exact Hd|].
  rewrite Hdirs. apply elem_of_union_l, elem_of_singleton_2. reflexivity.
Defined.

(** ** The results of a run, file by file *)

Lemma processImage_block IMAGES_DIR sharp f opts w rs w' :
  processImage IMAGES_DIR sharp f opts w = (Return rs, w') ->
  length rs = length (List.filter valid_token (formats opts))
  /\ Forall (fun r => src r = Path.basename f) rs.
Proof.
  intros (work & w1 & Hall & _)%processImage_results.
  apply convertAll_results in Hall. split.
  - apply (f_equal length) in Hall. unfold outputs_for in Hall.
    by rewrite !length_fmap in Hall.
  - apply Forall_forall. intros r Hr.
    apply (list_elem_of_fmap_2 rerun) in Hr. rewrite Hall in Hr.
    by apply list_elem_of_fmap in Hr as (o & [= -> _ _] & _).
Qed.

Lemma processFiles_blocks IMAGES_DIR sharp files opts acc w :
  exists rss,
    returned (processFiles IMAGES_DIR sharp files opts acc w) = acc ++ concat rss
    /\ Forall2 (fun f rs =>
                  (rs = [] \/ length rs = length (List.filter valid_token (formats opts)))
                  /\ Forall (fun r => src r = Path.basename f) rs) files rss.
Proof.
  revert acc w. induction files as [|f rest IH]; intros acc w.
  { exists []. split; [by rewrite app_nil_r|constructor]. }
  rewrite processFiles_cons.
  destruct (processImage IMAGES_DIR sharp f opts w) as [[e|res] w1] eqn:Hone.
  - destruct (IH acc (log_err [error_line f e] w1)) as (rss & -> & Hrss).
    exists ([] :: rss). split; [done|]. constructor; [|done]. split; [by left|constructor].
  - destruct (IH (acc ++ res) w1) as (rss & -> & Hrss).
    exists (res :: rss). split; [by rewrite <- app_assoc|].
    constructor; [|done].
    destruct (processImage_block _ _ _ _ _ _ _ Hone) as [Hlen Hsrc]. auto.
Qed.

(** X15.  The results of the loop of [main] come file by file in listing
    order: a file contributes either nothing (it failed, or no token is
    valid) or one result per valid token, all carrying its name; so there
    are at most (files) x (valid tokens) results. *)
Theorem results_file_by_file IMAGES_DIR sharp files opts w :
  let n := length (List.filter valid_token (formats opts)) in
  let rs := returned (processFiles IMAGES_DIR sharp files opts [] w) in
  (exists rss,
      rs = concat rss
      /\ Forall2 (fun f block =>
                    (block = [] \/ length block = n)
                    /\ Forall (fun r => src r = Path.basename f) block) files rss)
  /\ (length rs <= length files * n)%nat.
Proof.
  cbv zeta.
  destruct (processFiles_blocks IMAGES_DIR sharp files opts [] w) as (rss & -> & Hrss).
  split; [by exists rss|]. simpl.
  induction Hrss as [|f block files rss [Hblock _] _ IH]; [done|].
  simpl. rewrite length_app. destruct Hblock as [-> | ->]; simpl; lia.
Qed.

(** ** Nothing left to do *)

Section Settled.

Variable IMAGES_DIR : string.
Variable sharp : Sharp.

Lemma processFiles_settled files opts acc w :
  overwrite opts = false ->
  all_outputs_in IMAGES_DIR sharp (disk w) opts files ->
  let r := processFiles IMAGES_DIR sharp files opts acc w in
  disk (snd r) = disk w
  /\ List.filter is_work (calls (snd r)) = List.filter is_work (calls w)
  /\ exists new, returned r = acc ++ new
                 /\ Forall (fun x => status x = skipped_exists) new.
Proof.
  intros Hover. revert acc w. induction files as [|f rest IH]; intros acc w Hall.
  { cbv zeta. repeat split. exists []. by rewrite app_nil_r. }
  inversion Hall as [|? ? Hf Hrest]; subst.
  cbv zeta. rewrite processFiles_cons.
  destruct (reaches_fan_out sharp opts f) eqn:Hreach.
  - destruct (processImage_reaches IMAGES_DIR sharp f opts w Hreach)
      as (work & w1 & -> & Hd & _ & Hc).
    rewrite convertAll_skips; [|exact Hover|rewrite Hd; by apply Hf].
    destruct (IH (acc ++ (result_of (Path.basename f) skipped_exists
                            <$> outputs_for IMAGES_DIR (nameNoExt f) opts (formats opts)))
                w1) as (Hd' & Hc' & new & Hnew & Hskipped).
    { unfold all_outputs_in. by rewrite Hd. }
    rewrite Hd', Hc', Hd, Hc. repeat split.
    eexists. rewrite Hnew, <- app_assoc. split; [reflexivity|].
    apply Forall_app. split; [|exact Hskipped].
    apply Forall_forall. by intros x (o & -> & _)%list_elem_of_fmap.
  - destruct (processImage_stops IMAGES_DIR sharp f opts w Hreach)
      as (e & w1 & -> & Hd & _ & Hc).
    destruct (IH acc (log_err [error_line f e] w1)) as (Hd' & Hc' & Hnew).
    { unfold all_outputs_in. simpl. by rewrite Hd. }
    rewrite Hd', Hc'. simpl. by rewrite Hd, Hc.
Qed.

(** With a codec that accepts every encoder and every write, and both
    overwrite and dry-run off, a pass leaves the outputs of every file
    that got to the fan-out on disk. *)
Lemma processFiles_settles files opts acc w :
  overwrite opts = false -> dryRun opts = false ->
  (forall enc, sharp_encode sharp enc = None) ->
  (forall img enc p d, sharp_toFile sharp img enc p d = None) ->
  all_outputs_in IMAGES_DIR sharp
    (disk (snd (processFiles IMAGES_DIR sharp files opts acc w))) opts files.
Proof.
  intros Hover Hdry Henc Hfile. revert acc w.
  induction files as [|f rest IH]; intros acc w; [constructor|].
  rewrite processFiles_cons. constructor.
  - intros Hreach.
    destruct (processImage_reaches IMAGES_DIR sharp f opts w Hreach)
      as (work & w1 & -> & _).
    destruct (convertAll_returns sharp (Path.basename f) opts work
                (outputs_for IMAGES_DIR (nameNoExt f) opts (formats opts)) w1
                Henc Hfile) as (rs & w2 & Hall).
    rewrite Hall. eapply Forall_impl; [by eapply convertAll_all_exist|].
    intros o Ho. by apply processFiles_keeps.
  - destruct (processImage IMAGES_DIR sharp f opts w) as [[e|res] w1]; apply IH.
Qed.

End Settled.

(** X16.  With overwrite off, when every output of every listed file is
    already in the output directory, the loop of [main] changes nothing:
    the disk stays as it is, the codec is never asked to clone, encode or
    write, and every result is skipped-exists. *)
Theorem all_present_all_skipped IMAGES_DIR sharp files opts w :
  overwrite opts = false ->
  (forall f o, f ∈ files ->
               o ∈ outputs_for IMAGES_DIR (nameNoExt f) opts (formats opts) ->
               is_Some (disk w !! outFile o)) ->
  let r := processFiles IMAGES_DIR sharp files opts [] w in
  disk (snd r) = disk w
  /\ List.filter is_work (calls (snd r)) = List.filter is_work (calls w)
  /\ Forall (fun x => status x = skipped_exists) (returned r).
Proof.
  intros Hover Hall.
  destruct (processFiles_settled IMAGES_DIR sharp files opts [] w Hover)
    as (Hd & Hc & new & Hnew & Hskipped).
  { apply Forall_forall. intros f Hf _. apply Forall_forall. intros o Ho.
    by apply (Hall f o). }
  cbv zeta. by rewrite Hnew.
Qed.

(** [a.png] with only [webp] asked for, and [a.webp] there. *)
Lemma all_present_all_skipped_witness :
  let r := processFiles Sample.dir Sample.codec ["/app/images/a.png"]
             (set_formats ["webp"] defaults) [] Sample.with_a_webp in
  disk (snd r) = {[ "/app/images/formatted/a.webp" := Foreign 7 ]}
  /\ List.filter is_work (calls (snd r)) = []
  /\ Forall (fun x => status x = skipped_exists) (returned r).
Proof.
  apply (all_present_all_skipped Sample.dir Sample.codec ["/app/images/a.png"]
           (set_formats ["webp"] defaults) Sample.with_a_webp eq_refl).
  intros f o ->%list_elem_of_singleton Ho.
  apply list_elem_of_singleton in Ho as ->. by eexists.
Defined.

(** X17.  With overwrite and dry-run off and a codec that accepts every
    encoder and every write, one run settles the output directory: a
    second run with the same options, codec and listing leaves the disk
    exactly as the first left it, makes no clone, encode or write call,
    and reports only skipped-exists. *)
Theorem second_run_changes_nothing IMAGES_DIR sharp host opts w :
  overwrite opts = false -> dryRun opts = false ->
  (forall enc, sharp_encode sharp enc = None) ->
  (forall img enc p d, sharp_toFile sharp img enc p d = None) ->
  let first := run IMAGES_DIR sharp host opts w in
  let second := run IMAGES_DIR sharp host opts (snd first) in
  disk (snd second) = disk (snd first)
  /\ List.filter is_work (calls (snd second)) = List.filter is_work (calls (snd first))
  /\ Forall (fun x => status x = skipped_exists) (returned second).
Proof.
  intros Hover Hdry Henc Hfile. cbv zeta. rewrite !run_eq.
  destruct (host_mkdir host); [done|].
  destruct (host_readdir host) as [e|entries]; [done|].
  destruct (collectImageFiles IMAGES_DIR entries) as [|f files]; [done|].
  cbv zeta. cbn [fst snd].
  pose proof (processFiles_settles IMAGES_DIR sharp (f :: files) opts []
                (log_out (banner IMAGES_DIR opts (f :: files))
                   (made (OUTPUT_DIR IMAGES_DIR) w))
                Hover Hdry Henc Hfile) as Hsettled.
  match goal with
  | |- context [processFiles _ _ _ _ _ (log_out ?b (made ?d (log_out ?l ?w1)))] =>
      destruct (processFiles_settled IMAGES_DIR sharp (f :: files) opts []
                  (log_out b (made d (log_out l w1))) Hover Hsettled)
        as (Hd & Hc & new & Hnew & Hskipped)
  end.
  unfold returned at 1. cbn [fst snd]. fold (@returned ConversionResult).
  rewrite Hnew. unfold log_out in *. cbn [disk calls] in *.
  by rewrite Hd, Hc.
Qed.

(** The lenient codec over the sample listing. *)
Lemma second_run_changes_nothing_witness :
  disk (snd (run Sample.dir Sample.lenient Sample.host defaults
               (snd (run Sample.dir Sample.lenient Sample.host defaults Sample.empty))))
  = disk (snd (run Sample.dir Sample.lenient Sample.host defaults Sample.empty)).
Proof.
  apply (second_run_changes_nothing Sample.dir Sample.lenient Sample.host defaults
           Sample.empty); reflexivity.
Defined.

(** ** Names at the edges *)

Lemma split_without_char sep c s :
  Js.includes s c = false ->
  Forall (fun x => Js.includes x c = false) (Js.split sep s).
Proof.
  induction s as [|d r IH]; simpl; [by repeat constructor|].
  intros [Hd Hr]%orb_false_elim. specialize (IH Hr).
  destruct (Ascii.eqb d sep); [by constructor|].
  destruct (Js.split sep r) as [|h t]; [by repeat constructor; simpl; rewrite Hd|].
  inversion IH; subst. constructor; [|done]. simpl. by rewrite Hd.
Qed.

Lemma ext_of_no_dot b : Js.includes b "." = false -> Path.ext_of b = "".
Proof.
  destruct b as [|c r]; [done|].
  intros Hb. simpl in Hb. apply orb_false_elim in Hb as [_ Hr].
  unfold Path.ext_of. rewrite (from_last_dot_without r Hr).
  by destruct (String.eqb (String c r) "..").
Qed.

(** X18.  A name without any dot is never an image file, nor is a name
    whose only dot comes first ([.jpg], [.PNG]); for any other plain name
    only the last extension counts, so [shot.png.txt] is not an image file
    and [shot.txt.PNG] is. *)
Theorem last_extension_decides :
  (forall n, Js.includes n "." = false -> isImageFile n = false)
  /\ (forall ext,
         Js.includes ext "." = false -> Js.includes ext "/" = false ->
         isImageFile ("." +:+ ext) = false)
  /\ (forall stem ext,
         stem <> "" -> ext <> "" -> Js.includes ext "." = false ->
         Js.includes (stem +:+ "." +:+ ext) "/" = false ->
         isImageFile (stem +:+ "." +:+ ext)
         = has SUPPORTED_EXTS ("." +:+ Js.toLowerCase ext)).
Proof.
  split; [|split].
  - intros n Hdot. unfold isImageFile, Path.extname.
    rewrite ext_of_no_dot; [done|].
    unfold Path.basename. apply last_nonempty_keeps; [done|].
    by apply split_without_char.
  - intros ext Hdot Hsep. unfold isImageFile, Path.extname.
    change ("." +:+ ext) with (String "." ext).
    rewrite basename_plain by exact Hsep. unfold Path.ext_of.
    rewrite (from_last_dot_without ext Hdot).
    by destruct (String.eqb (String "." ext) "..").
  - intros stem ext Hstem Hext Hdot Hsep. unfold isImageFile, Path.extname.
    rewrite basename_plain, ext_of_stem by done.
    change ("." +:+ ext) with (String "." ext). reflexivity.
Qed.

(** Four names. *)
Lemma last_extension_decides_witness :
  isImageFile "README" = false /\ isImageFile ".jpg" = false
  /\ isImageFile "shot.png.txt" = false /\ isImageFile "shot.txt.PNG" = true.
Proof.
  destruct last_extension_decides as (Hnone & Hhidden & Hlast).
  split; [|split; [|split]].
  - by apply Hnone.
  - by apply (Hhidden "jpg").
  - etrans; [apply (Hlast "shot.png" "txt"); done|reflexivity].
  - etrans; [apply (Hlast "shot.txt" "PNG"); done|reflexivity].
Defined.

(** ** From the listing to the results *)

Lemma collected_files dir entries f :
  Forall (fun e => plain_name (name e)) entries ->
  f ∈ collectImageFiles dir entries ->
  exists e, e ∈ entries /\ isFile e = true /\ isImageFile (name e) = true
            /\ f = Path.join dir (name e) /\ Path.basename f = name e.
Proof.
  intros Hplain. rewrite collectImageFiles_eq.
  intros (e & -> & He)%list_elem_of_fmap.
  apply list_elem_of_In, filter_In in He as [He [Hfile Himg]%andb_prop].
  apply list_elem_of_In in He.
  rewrite Forall_forall in Hplain. destruct (Hplain e He) as [Hne Hsep].
  exists e. repeat split; try done. by apply basename_join.
Qed.

(** X19.  Whatever the run reports, it reports about a listed picture:
    with the names of the listing being plain (not empty, no separator),
    the [src] of every result is the name of a direct entry that is a
    regular file with a supported extension. *)
Theorem results_come_from_listing IMAGES_DIR sharp host opts w entries r :
  host_readdir host = inr entries ->
  Forall (fun e => plain_name (name e)) entries ->
  r ∈ returned (run IMAGES_DIR sharp host opts w) ->
  exists e, e ∈ entries /\ isFile e = true /\ isImageFile (name e) = true
            /\ src r = name e.
Proof.
  intros Hread Hplain. rewrite run_eq, Hread.
  destruct (host_mkdir host); [by intros ?%elem_of_nil|].
  destruct (collectImageFiles IMAGES_DIR entries) as [|f files] eqn:Hfiles;
    [by intros ?%elem_of_nil|].
  cbv zeta. unfold returned at 1. cbn [fst snd]. fold (@returned ConversionResult).
  destruct (processFiles_blocks IMAGES_DIR sharp (f :: files) opts []
              (log_out (banner IMAGES_DIR opts (f :: files))
                 (made (OUTPUT_DIR IMAGES_DIR) w))) as (rss & -> & Hrss).
  simpl. intros (block & Hblock & Hr)%list_elem_of_In%in_concat.
  apply list_elem_of_In in Hblock, Hr.
  apply list_elem_of_lookup in Hblock as [i Hi].
  destruct (Forall2_lookup_r _ _ _ _ _ Hrss Hi) as (g & Hg & _ & Hsrc).
  rewrite Forall_forall in Hsrc. rewrite (Hsrc r Hr).
  assert (Hin : g ∈ collectImageFiles IMAGES_DIR entries).
  { rewrite Hfiles. apply list_elem_of_lookup. eauto. }
  destruct (collected_files IMAGES_DIR entries g Hplain Hin)
    as (e & He & Hfile & Himg & _ & Hbase).
  exists e. by rewrite Hbase.
Qed.

(** The sample run: a result about [b.jpg]. *)
Lemma results_come_from_listing_witness :
  exists e, e ∈ [RegularFile "a.png"; Directory "formatted" [RegularFile "a.webp"];
                 RegularFile "bad.png"; RegularFile "b.jpg"; RegularFile "notes.txt";
                 Special "link.png"; Directory "album.jpg" []; RegularFile "a.GIF"]
            /\ isFile e = true /\ isImageFile (name e) = true /\ "b.jpg" = name e.
Proof.
  apply (results_come_from_listing Sample.dir Sample.codec Sample.host defaults
           Sample.empty _ (mkResult "b.jpg" "b.webp" "webp" written) eq_refl).
  - repeat constructor; done.
  - apply list_elem_of_In. vm_compute. auto 10.
Defined.
